(** * build_pack.py: the archive-transparent content resolver

    A shallow embedding of [build_pack.py] (the SMDB pack builder) and the
    properties of its manifest index, its hashing, its traversal and its
    output materialisation.

    Python values are modelled as follows:
    - [bytes] objects are lists of [Byte.byte];
    - [str] objects are [string]s (code points below 256);
    - the two module globals [DB] (a dict) and [FOUND] (a set) are a [gmap]
      and a [gset], threaded explicitly through every call;
    - the file system is a finite map from normalised paths to nodes;
    - exceptions are an outcome next to the state a call leaves behind;
    - the interpreter's bounded call stack is a [nat] budget: a call made
      with no budget left raises [RecursionError]. *)

From Stdlib Require Import ZArith NArith Lia List Ascii String.
From Stdlib.Strings Require Import Byte.
From stdpp Require Import gmap strings list fin_maps sorting.
From Equations Require Import Equations.

Local Open Scope Z_scope.

(** ** Byte strings *)

Abbreviation bytes := (list Byte.byte).

#[global] Instance byte_eq_dec : EqDecision Byte.byte := Byte.byte_eq_dec.
#[global] Instance byte_countable : Countable Byte.byte :=
  inj_countable Byte.to_N Byte.of_N Byte.of_to_N.

Definition byte_to_Z (b : Byte.byte) : Z := Z.of_N (Byte.to_N b).

Definition byte_of_Z (z : Z) : Byte.byte :=
  match Byte.of_N (Z.to_N (z mod 256)) with
  | Some b => b
  | None => Byte.x00
  end.

(** ** hashlib.sha256

    The hash object of [hashlib]: [sha256()] creates it, [update] absorbs
    bytes, [digest] pads and finishes.  Words are 32-bit integers held in
    [Z] with the wrap-around written out. *)

Module Sha256.

Definition wrap (x : Z) : Z := x mod 2 ^ 32.
Definition add32 (x y : Z) : Z := wrap (x + y).
Definition rotr (n x : Z) : Z :=
  Z.lor (Z.shiftr x n) (wrap (Z.shiftl x (32 - n))).
Definition shr (n x : Z) : Z := Z.shiftr x n.
Definition not32 (x : Z) : Z := Z.lxor x (2 ^ 32 - 1).

Definition Ch (x y z : Z) : Z := Z.lxor (Z.land x y) (Z.land (not32 x) z).
Definition Maj (x y z : Z) : Z :=
  Z.lxor (Z.lxor (Z.land x y) (Z.land x z)) (Z.land y z).
Definition Sigma0 (x : Z) : Z := Z.lxor (Z.lxor (rotr 2 x) (rotr 13 x)) (rotr 22 x).
Definition Sigma1 (x : Z) : Z := Z.lxor (Z.lxor (rotr 6 x) (rotr 11 x)) (rotr 25 x).
Definition sigma0 (x : Z) : Z := Z.lxor (Z.lxor (rotr 7 x) (rotr 18 x)) (shr 3 x).
Definition sigma1 (x : Z) : Z := Z.lxor (Z.lxor (rotr 17 x) (rotr 19 x)) (shr 10 x).

(** The constants are not tabulated: they are the first 32 bits of the
    fractional parts of the cube roots (for [K]) and of the square roots
    (for [H0]) of the first 64 and the first 8 primes. *)
Definition is_prime (n : Z) : bool :=
  (1 <? n) && forallb (fun d => negb (n mod d =? 0))
                (map Z.of_nat (seq 2 (Z.to_nat n - 2))).

Definition primes (count : nat) : list Z :=
  take count (filter (fun n => is_prime n = true) (map Z.of_nat (seq 2 310))).

(** The integer cube root, one bit after the other from bit [bits - 1]. *)
Fixpoint cube_root (bits : nat) (n r : Z) : Z :=
  match bits with
  | O => r
  | S b =>
      let r' := r + 2 ^ Z.of_nat b in
      cube_root b n (if r' * r' * r' <=? n then r' else r)
  end.

Definition K : list Z :=
  Eval vm_compute in map (fun p => wrap (cube_root 36 (p * 2 ^ 96) 0)) (primes 64).

Definition H0 : list Z :=
  Eval vm_compute in map (fun p => wrap (Z.sqrt (p * 2 ^ 64))) (primes 8).

(** Big-endian packing of four bytes into a word and back. *)
Fixpoint be_words (l : bytes) : list Z :=
  match l with
  | a :: b :: c :: d :: rest =>
      (byte_to_Z a * 2 ^ 24 + byte_to_Z b * 2 ^ 16
       + byte_to_Z c * 2 ^ 8 + byte_to_Z d) :: be_words rest
  | _ => []
  end.

Definition word_bytes (w : Z) : bytes :=
  [ byte_of_Z (Z.shiftr w 24); byte_of_Z (Z.shiftr w 16);
    byte_of_Z (Z.shiftr w 8); byte_of_Z w ].

(** The message schedule: the 16 words of the block, then 48 more, each
    from the 16 before it.  [rev_w] holds the words so far, newest first. *)
Fixpoint extend (n : nat) (rev_w : list Z) : list Z :=
  match n with
  | O => rev_w
  | S n' =>
      let w2 := nth 1 rev_w 0 in
      let w7 := nth 6 rev_w 0 in
      let w15 := nth 14 rev_w 0 in
      let w16 := nth 15 rev_w 0 in
      extend n'
        (add32 (add32 (sigma1 w2) w7) (add32 (sigma0 w15) w16) :: rev_w)
  end.

Definition schedule (block : bytes) : list Z :=
  rev (extend 48 (rev (be_words block))).

Record regs := Regs { ra : Z; rb : Z; rc : Z; rd : Z;
                       re : Z; rf : Z; rg : Z; rh : Z }.

Definition round (r : regs) (kw : Z * Z) : regs :=
  let t1 := add32 (add32 (add32 (rh r) (Sigma1 (re r)))
                         (add32 (Ch (re r) (rf r) (rg r)) (fst kw)))
                  (snd kw) in
  let t2 := add32 (Sigma0 (ra r)) (Maj (ra r) (rb r) (rc r)) in
  Regs (add32 t1 t2) (ra r) (rb r) (rc r) (add32 (rd r) t1) (re r) (rf r) (rg r).

Definition regs_of (h : list Z) : regs :=
  Regs (nth 0 h 0) (nth 1 h 0) (nth 2 h 0) (nth 3 h 0)
       (nth 4 h 0) (nth 5 h 0) (nth 6 h 0) (nth 7 h 0).

Definition compress (h : list Z) (block : bytes) : list Z :=
  let r0 := regs_of h in
  let r := fold_left round (combine K (schedule block)) r0 in
  [ add32 (ra r0) (ra r); add32 (rb r0) (rb r);
    add32 (rc r0) (rc r); add32 (rd r0) (rd r);
    add32 (re r0) (re r); add32 (rf r0) (rf r);
    add32 (rg r0) (rg r); add32 (rh r0) (rh r) ].

(** The hash object: chaining value, the bytes of the unfinished block,
    and the number of bytes absorbed so far. *)
Record t := Obj { chain : list Z; pending : bytes; total : Z }.

Definition new : t := Obj H0 [] 0.

(** One byte enters the buffer; a full buffer of 64 is compressed. *)
Definition absorb (o : t) (x : Byte.byte) : t :=
  let buf := pending o ++ [x] in
  if (length buf =? 64)%nat
  then Obj (compress (chain o) buf) [] (total o + 1)
  else Obj (chain o) buf (total o + 1).

Definition update (o : t) (data : bytes) : t := fold_left absorb data o.

(** The length of the message in bits, as 8 big-endian bytes. *)
Definition length_bytes (nbytes : Z) : bytes :=
  let bits := (nbytes * 8) mod 2 ^ 64 in
  word_bytes (Z.shiftr bits 32) ++ word_bytes bits.

(** Padding: 0x80, zeros up to 56 modulo 64, then the length. *)
Definition padding (nbytes : Z) : bytes :=
  let k := Z.to_nat ((55 - nbytes) mod 64) in
  Byte.x80 :: repeat Byte.x00 k ++ length_bytes nbytes.

Definition digest (o : t) : bytes :=
  let o' := update o (padding (total o)) in
  concat (map word_bytes (chain o')).

(** The digest of a whole message as FIPS 180-4 words it: pad the
    message, cut it into 64-byte blocks, compress block after block. *)
Fixpoint hash_blocks (n : nat) (h : list Z) (msg : bytes) : list Z :=
  match n with
  | O => h
  | S n' => hash_blocks n' (compress h (take 64 msg)) (drop 64 msg)
  end.

Definition reference (msg : bytes) : bytes :=
  let padded := msg ++ padding (Z.of_nat (length msg)) in
  concat (map word_bytes (hash_blocks (length padded / 64) H0 padded)).

End Sha256.

(** ** Reading a file in chunks

    An open binary file is the bytes not read yet: [read n] returns at
    most [n] of them and leaves the rest. *)

Definition f_read (n : nat) (f : bytes) : bytes * bytes := (take n f, drop n f).

Definition chunk_size : nat := 4096.

Definition inspect {A : Type} (a : A) : {b : A | a = b} := exist _ a eq_refl.

(** [for chunk in iter(lambda: f.read(4096), b''): h.update(chunk)]:
    the loop ends at the first empty chunk; every other turn consumes at
    least one byte of the file. *)
Equations? hash_loop (f : bytes) (h : Sha256.t) : Sha256.t by wf (length f) lt :=
  hash_loop f h with inspect (f_read chunk_size f) := {
    | exist _ ([], _) _ => h
    | exist _ (c :: chunk, f') _ => hash_loop f' (Sha256.update h (c :: chunk)) }.
Proof.
  destruct f as [|x f]; [discriminate|].
  rewrite length_drop. unfold chunk_size. simpl. lia.
Qed.

(** [hash_file], on the content that [open(path, 'rb')] gives access to. *)
Definition hash_open (content : bytes) : bytes :=
  Sha256.digest (hash_loop content Sha256.new).

Definition hash_mem (buf : bytes) : bytes :=
  Sha256.digest (Sha256.update Sha256.new buf).

Definition bytes_of_string (s : string) : bytes :=
  map byte_of_ascii (list_ascii_of_string s).

(** ** Exceptions and outcomes *)

Inductive os_error :=
  | FileNotFoundError | NotADirectoryError | FileExistsError
  | IsADirectoryError | SpecialFileError.

Inductive value_error :=
  | NotEnoughValues            (* the tuple unpacking of [split] *)
  | ExpectedSha256 (got : string)  (* raised by [load_smdb] itself *)
  | NonHexadecimal.            (* [bytearray.fromhex] *)

Inductive exn :=
  | ValueError (why : value_error)
  | ArchiveError
  | OSError (e : os_error)
  | RecursionError
  | ZeroDivisionError.

Inductive outcome := Normal | Raise (e : exn).

(** [except (ValueError, libarchive.exception.ArchiveError)] *)
Definition caught (e : exn) : bool :=
  match e with
  | ValueError _ | ArchiveError => true
  | _ => false
  end.

(** ** Python [str] methods used by [load_smdb] *)

Module Py.

Local Open Scope string_scope.
Local Open Scope nat_scope.

Definition code (c : ascii) : nat := nat_of_ascii c.

(** [str.isspace], on the code points below 256. *)
Definition isspace (c : ascii) : bool :=
  let n := code c in
  ((9 <=? n) && (n <=? 13)) || ((28 <=? n) && (n <=? 32))
  || (n =? 133) || (n =? 160).

(** [Py_ISSPACE], which [fromhex] uses: the ASCII white space only. *)
Definition c_isspace (c : ascii) : bool :=
  let n := code c in ((9 <=? n) && (n <=? 13)) || (n =? 32).

Fixpoint lstrip (s : string) : string :=
  match s with
  | String c rest => if isspace c then lstrip rest else s
  | EmptyString => EmptyString
  end.

Definition rstrip (s : string) : string :=
  String.rev (lstrip (String.rev s)).

Definition strip (s : string) : string := rstrip (lstrip s).

(** [s[n:]] *)
Fixpoint slice_from (n : nat) (s : string) : string :=
  match n, s with
  | O, _ => s
  | S n', String _ rest => slice_from n' rest
  | S _, EmptyString => EmptyString
  end.

(** [s.split(sep, maxsplit)] for a one-character separator. *)
Fixpoint split (sep : ascii) (maxsplit : nat) (s : string) : list string :=
  match s with
  | EmptyString => [EmptyString]
  | String c rest =>
      match maxsplit with
      | O => [s]
      | S m =>
          if Ascii.eqb c sep then EmptyString :: split sep m rest
          else match split sep maxsplit rest with
               | field :: fields => String c field :: fields
               | [] => [String c EmptyString]
               end
      end
  end.

Definition hex_digit (c : ascii) : option nat :=
  let n := code c in
  if (48 <=? n) && (n <=? 57) then Some (n - 48)
  else if (97 <=? n) && (n <=? 102) then Some (n - 87)
  else if (65 <=? n) && (n <=? 70) then Some (n - 55)
  else None.

(** [bytearray.fromhex]: two hexadecimal digits per byte; white space
    before a pair is skipped, anything else is a [ValueError]. *)
Fixpoint fromhex (s : string) : option bytes :=
  match s with
  | EmptyString => Some []
  | String c rest =>
      if c_isspace c then fromhex rest
      else match hex_digit c, rest with
           | Some hi, String d rest' =>
               match hex_digit d with
               | Some lo =>
                   cons (byte_of_Z (Z.of_nat (16 * hi + lo))) <$> fromhex rest'
               | None => None
               end
           | _, _ => None
           end
  end.

(** The order of [str] values: code point by code point, a proper
    prefix first. *)
Definition lt (a b : string) : bool := String.ltb a b.

(** [l.sort(key=key, reverse=True)]: descending by key, and stable, so
    lines with equal keys keep the order they had. *)
Fixpoint insert_desc (key : string -> string) (x : string) (l : list string)
  : list string :=
  match l with
  | [] => [x]
  | y :: ys =>
      if lt (key x) (key y) then y :: insert_desc key x ys
      else x :: y :: ys
  end.

Fixpoint sort_reverse (key : string -> string) (l : list string) : list string :=
  match l with
  | [] => []
  | x :: rest => insert_desc key x (sort_reverse key rest)
  end.

(** [posixpath.join(a, b)] *)
Definition startswith_sep (s : string) : bool :=
  match s with String c _ => Ascii.eqb c "/" | EmptyString => false end.

Fixpoint endswith_sep (s : string) : bool :=
  match s with
  | EmptyString => false
  | String c EmptyString => Ascii.eqb c "/"
  | String _ rest => endswith_sep rest
  end.

Definition join (a b : string) : string :=
  if startswith_sep b then b
  else if String.eqb a "" || endswith_sep a then a ++ b
  else a ++ String "/" b.

Fixpoint has_sep (s : string) : bool :=
  match s with
  | EmptyString => false
  | String c rest => Ascii.eqb c "/" || has_sep rest
  end.

Fixpoint all_sep (s : string) : bool :=
  match s with
  | EmptyString => true
  | String c rest => Ascii.eqb c "/" && all_sep rest
  end.

(** [p[:p.rfind('/') + 1]] *)
Fixpoint head (p : string) : string :=
  match p with
  | EmptyString => EmptyString
  | String c rest => if has_sep p then String c (head rest) else EmptyString
  end.

(** [s.rstrip('/')] *)
Fixpoint rstrip_sep (s : string) : string :=
  match s with
  | EmptyString => EmptyString
  | String c rest => if all_sep s then EmptyString else String c (rstrip_sep rest)
  end.

(** [posixpath.dirname]: up to the last separator, the separators that
    end the head removed unless it has nothing else. *)
Definition dirname (p : string) : string :=
  let h := head p in
  if all_sep h then h else rstrip_sep h.

(** [glob.has_magic] *)
Fixpoint has_magic (s : string) : bool :=
  match s with
  | EmptyString => false
  | String c rest =>
      Ascii.eqb c "*" || Ascii.eqb c "?" || Ascii.eqb c "[" || has_magic rest
  end.

End Py.

(** ** The manifest index: [load_smdb] *)

Abbreviation index := (gmap bytes string).

Definition tab : ascii := ascii_of_nat 9.
Definition newline : ascii := ascii_of_nat 10.

(** The body of the loop up to the assignment: the key and the file name
    the line gives, or the [ValueError] it raises. *)
Definition parse_line (line : string) : value_error + (bytes * string) :=
  match Py.split tab 4 (Py.strip line) with
  | [sha256; filename; sha1; md5; crc] =>
      if negb (String.length sha256 =? 64)%nat then inl (ExpectedSha256 sha256)
      else match Py.fromhex sha256 with
           | Some key => inr (key, filename)
           | None => inl NonHexadecimal
           end
  | _ => inl NotEnoughValues
  end.

(** [for line in lines: ...; DB[...] = filename], from the index so far. *)
Fixpoint load_lines (lines : list string) (db : index) : outcome * index :=
  match lines with
  | [] => (Normal, db)
  | line :: rest =>
      match parse_line line with
      | inl e => (Raise (ValueError e), db)
      | inr (key, filename) => load_lines rest (<[key := filename]> db)
      end
  end.

Definition sort_key (l : string) : string := Py.slice_from 65 l.

(** [load_smdb], on the list that [f.readlines()] returns.  The global
    [DB] is emptied first and keeps what was stored when a line raises. *)
Definition load_smdb (lines : list string) : outcome * index :=
  load_lines (Py.sort_reverse sort_key lines) ∅.

(** ** The file system

    A path names a node through its components, counted from the working
    directory, which is also the root: the empty list.  A node is what
    [stat] finds there after following symbolic links, and whether the
    name itself is a symbolic link.  Dangling links are not modelled. *)

Inductive target := TFile (content : bytes) | TDir | TSpecial.

Record node := Node { via_symlink : bool; resolved : target }.

Abbreviation path := (list string).
Abbreviation filesystem := (gmap (list string) node).

Module Os.

(** The fields between separators. *)
Fixpoint fields (s : string) : list string :=
  match s with
  | EmptyString => [EmptyString]
  | String c rest =>
      if Ascii.eqb c "/" then EmptyString :: fields rest
      else match fields rest with
           | f :: fs => String c f :: fs
           | [] => [String c EmptyString]
           end
  end.

(** Components that name no entry of their own. *)
Definition trivial (c : string) : bool := String.eqb c "" || String.eqb c ".".

Definition step (cur : path) (c : string) : path :=
  if trivial c then cur
  else if String.eqb c ".." then removelast cur
  else cur ++ [c].

Definition node_at (fs : filesystem) (k : path) : option target :=
  match k with
  | [] => Some TDir
  | _ => resolved <$> fs !! k
  end.

(** The walk of the kernel: every component, also an empty one or a
    dot, is looked up in a directory. *)
Fixpoint namei (fs : filesystem) (cur : path) (comps : list string)
  : os_error + path :=
  match comps with
  | [] => inr cur
  | c :: rest =>
      match node_at fs cur with
      | Some TDir => namei fs (step cur c) rest
      | Some _ => inl NotADirectoryError
      | None => inl FileNotFoundError
      end
  end.

Definition lookup (fs : filesystem) (s : string) : os_error + path :=
  if String.eqb s "" then inl FileNotFoundError
  else namei fs [] (fields s).

(** [os.stat], following symbolic links *)
Definition stat (fs : filesystem) (s : string) : option target :=
  match lookup fs s with
  | inr k => node_at fs k
  | inl _ => None
  end.

Definition exists_ (fs : filesystem) (s : string) : bool :=
  match stat fs s with Some _ => true | None => false end.

Definition isdir (fs : filesystem) (s : string) : bool :=
  match stat fs s with Some TDir => true | _ => false end.

Definition isfile (fs : filesystem) (s : string) : bool :=
  match stat fs s with Some (TFile _) => true | _ => false end.

(** [open(s, 'rb').read()] *)
Definition read (fs : filesystem) (s : string) : os_error + bytes :=
  match lookup fs s with
  | inl e => inl e
  | inr k =>
      match node_at fs k with
      | Some (TFile c) => inr c
      | Some TDir => inl IsADirectoryError
      | Some TSpecial => inl SpecialFileError
      | None => inl FileNotFoundError
      end
  end.

(** Where a new entry goes: the directory that the components before
    the last lead to, and the last component as its name. *)
Definition slot (fs : filesystem) (comps : list string)
  : os_error + (path * string) :=
  match last comps with
  | None => inl FileNotFoundError
  | Some name =>
      match namei fs [] (removelast comps) with
      | inl e => inl e
      | inr cur =>
          match node_at fs cur with
          | Some TDir => inr (cur, name)
          | Some _ => inl NotADirectoryError
          | None => inl FileNotFoundError
          end
      end
  end.

(** [open(s, 'wb')] followed by [write(content)] *)
Definition write (fs : filesystem) (s : string) (content : bytes)
  : os_error + filesystem :=
  if String.eqb s "" then inl FileNotFoundError
  else
    match slot fs (fields s) with
    | inl e => inl e
    | inr (cur, name) =>
        if trivial name || String.eqb name ".." then inl IsADirectoryError
        else
          match fs !! (cur ++ [name]) with
          | Some n =>
              match resolved n with
              | TFile _ =>
                  inr (<[cur ++ [name] := Node (via_symlink n) (TFile content)]> fs)
              | TDir => inl IsADirectoryError
              | TSpecial => inr fs
              end
          | None => inr (<[cur ++ [name] := Node false (TFile content)]> fs)
          end
    end.

(** [shutil.copyfile(src, dst)], for distinct files *)
Definition copyfile (fs : filesystem) (src dst : string) : os_error + filesystem :=
  match read fs src with
  | inl e => inl e
  | inr content => write fs dst content
  end.

(** The parts of a [pathlib.Path]: empty components and dots are gone,
    [..] stays. *)
Definition parts (s : string) : list string :=
  filter (fun c => trivial c = false) (fields s).

(** [Path.is_dir], on the parts *)
Definition parts_isdir (fs : filesystem) (ps : list string) : bool :=
  match namei fs [] ps with
  | inr k => match node_at fs k with Some TDir => true | _ => false end
  | inl _ => false
  end.

(** [os.mkdir], on the parts of the path; without parts the path is the
    working directory. *)
Definition mkdir (fs : filesystem) (ps : list string) : os_error + filesystem :=
  match ps with
  | [] => inl FileExistsError
  | _ =>
      match slot fs ps with
      | inl e => inl e
      | inr (cur, name) =>
          if String.eqb name ".." then inl FileExistsError
          else match fs !! (cur ++ [name]) with
               | Some _ => inl FileExistsError
               | None => inr (<[cur ++ [name] := Node false TDir]> fs)
               end
      end
  end.

End Os.

(** [pathlib.Path(p).mkdir(parents=True, exist_ok=True)], for the path of
    the first [n] parts of [ps]: [os.mkdir]; on [FileNotFoundError] the
    parent first and then [os.mkdir] again; any other error is dropped
    when the path is a directory. *)
Fixpoint path_mkdir (n : nat) (ps : list string) (fs : filesystem)
  : option os_error * filesystem :=
  let self := take n ps in
  match Os.mkdir fs self with
  | inr fs' => (None, fs')
  | inl FileNotFoundError =>
      match n with
      | O => (Some FileNotFoundError, fs)
      | S n' =>
          match path_mkdir n' ps fs with
          | (Some e, fs') => (Some e, fs')
          | (None, fs') =>
              match Os.mkdir fs' self with
              | inr fs'' => (None, fs'')
              | inl FileNotFoundError => (Some FileNotFoundError, fs')
              | inl e =>
                  if Os.parts_isdir fs' self then (None, fs') else (Some e, fs')
              end
          end
      end
  | inl e => if Os.parts_isdir fs self then (None, fs) else (Some e, fs)
  end.

Definition mkdir_parents (dir : string) (fs : filesystem)
  : option os_error * filesystem :=
  let ps := Os.parts dir in path_mkdir (length ps) ps fs.

(** ** What the program does not define itself

    [libarchive]: the entries a reader yields for a byte string, and
    whether the iteration then ends ([true]) or raises [ArchiveError]
    ([false]); a byte string that is no archive yields nothing and raises.

    [os.scandir] and [fnmatch], behind [glob.glob]: the names in a
    directory, in the order the system lists them, and the paths that a
    pattern with wildcards in its directory part expands to. *)

Class Libarchive := { entries : bytes -> list bytes * bool }.

Class Scandir := {
  listdir : filesystem -> path -> list string;
  glob_magic : filesystem -> string -> list string
}.

(** A listing has exactly the names of the nodes right below the directory. *)
Class ScandirLaws `{Scandir} := {
  listdir_elem : forall fs d name,
    name ∈ listdir fs d <-> is_Some (fs !! (d ++ [name]))
}.

(** ** The program state *)

Inductive message :=
  | WhatIsIt
  | MsgDone
  | SmdbLists (n : nat)
  | FoundFiles (found total : nat)
  | ErrNoDestination (destination : string)
  | ErrSmdb (e : value_error).

Record state := State {
  DB : index;
  FOUND : gset bytes;
  disk : filesystem;
  printed : list message
}.

Definition set_disk (fs : filesystem) (st : state) : state :=
  State (DB st) (FOUND st) fs (printed st).

Definition print (m : message) (st : state) : state :=
  State (DB st) (FOUND st) (disk st) (printed st ++ [m]).

(** A source is a [bytes] buffer or a path [str]. *)
Inductive source := Buffer (buf : bytes) | Path (name : string).

(** [for x in l: body(x)], stopping at the first exception. *)
Fixpoint for_each {A : Type} (body : A -> state -> outcome * state)
  (l : list A) (st : state) : outcome * state :=
  match l with
  | [] => (Normal, st)
  | x :: rest =>
      match body x st with
      | (Normal, st') => for_each body rest st'
      | r => r
      end
  end.

Definition of_os (r : os_error + filesystem) (st : state) : outcome * state :=
  match r with
  | inl e => (Raise (OSError e), st)
  | inr fs => (Normal, set_disk fs st)
  end.

Definition write_file (src : source) (destination : string) (h : bytes)
  (st : state) : outcome * state :=
  match DB st !! h with
  | None => (Normal, st)
  | Some filename =>
      let st := State (DB st) ({[h]} ∪ FOUND st) (disk st) (printed st) in
      let out_path := Py.join destination filename in
      let out_dir := Py.dirname out_path in
      match mkdir_parents out_dir (disk st) with
      | (Some e, fs) => (Raise (OSError e), set_disk fs st)
      | (None, fs) =>
          let st := set_disk fs st in
          if Os.exists_ (disk st) out_path then (Normal, st)
          else match src with
               | Buffer buf => of_os (Os.write (disk st) out_path buf) st
               | Path name => of_os (Os.copyfile (disk st) name out_path) st
               end
      end
  end.

Definition hash_file (fs : filesystem) (name : string) : os_error + bytes :=
  match Os.read fs name with
  | inl e => inl e
  | inr content => inr (hash_open content)
  end.

Section Resolver.

Context `{Harch : Libarchive, Hscan : Scandir}.

(** What the reader is opened on: the buffer, or the content of the file. *)
Definition reader_input (src : source) (st : state) : option bytes :=
  match src with
  | Buffer buf => Some buf
  | Path name =>
      match Os.read (disk st) name with
      | inr content => Some content
      | inl _ => None
      end
  end.

(** [read_file] on a buffer *)
Definition read_file_buffer (buf : bytes) (destination : string)
  (st : state) : outcome * state :=
  write_file (Buffer buf) destination (hash_mem buf) st.

(** The handler in [read_archive]: [except (...): read_file(buf, ...)] *)
Definition or_read_file (buf : bytes) (destination : string)
  (r : outcome * state) : outcome * state :=
  match r with
  | (Raise e, st) =>
      if caught e then read_file_buffer buf destination st else r
  | _ => r
  end.

(** [read_archive], with [depth] calls left on the stack. *)
Fixpoint read_archive (depth : nat) (src : source) (destination : string)
  (st : state) : outcome * state :=
  match depth with
  | O => (Raise RecursionError, st)
  | S depth' =>
      match reader_input src st with
      | None => (Raise ArchiveError, st)
      | Some content =>
          let '(es, complete) := entries content in
          match for_each
                  (fun buf st =>
                     or_read_file buf destination
                       (read_archive depth' (Buffer buf) destination st))
                  es st with
          | (Normal, st') =>
              if complete then (Normal, st') else (Raise ArchiveError, st')
          | r => r
          end
      end
  end.

(** [read_file] *)
Definition read_file (depth : nat) (src : source) (destination : string)
  (st : state) : outcome * state :=
  match src with
  | Buffer buf => read_file_buffer buf destination st
  | Path name =>
      if Os.isfile (disk st) name then
        match read_archive depth src destination st with
        | (Raise e, st') =>
            if caught e then
              match hash_file (disk st') name with
              | inl e' => (Raise (OSError e'), st')
              | inr h => write_file src destination h st'
              end
            else (Raise e, st')
        | r => r
        end
      else (Normal, print WhatIsIt st)
  end.

Definition hidden (name : string) : bool :=
  match name with String "." _ => true | _ => false end.

(** [glob.glob(os.path.join(source, '*'))]: the names in the directory
    that do not start with a dot, each joined to the directory; nothing
    when the path is no directory.  Without a directory part ([source]
    empty) the pattern lists the working directory. *)
Definition glob_star (fs : filesystem) (dir : string) : list string :=
  if Py.has_magic dir then glob_magic fs dir
  else
    match Os.namei fs [] (Os.fields dir) with
    | inr k =>
        match Os.node_at fs k with
        | Some TDir =>
            map (Py.join dir)
              (filter (fun name => hidden name = false) (listdir fs k))
        | _ => []
        end
    | inl _ => []
    end.

(** [read_dir], with [depth] calls left on the stack. *)
Fixpoint read_dir (depth : nat) (dir : string) (destination : string)
  (st : state) : outcome * state :=
  match depth with
  | O => (Raise RecursionError, st)
  | S depth' =>
      for_each
        (fun name st =>
           if Os.isdir (disk st) name
           then read_dir depth' name destination st
           else if Os.isfile (disk st) name
           then read_file depth' (Path name) destination st
           else (Normal, st))
        (glob_star (disk st) dir) st
  end.

(** The loop of [main] over the sources. *)
Definition read_sources (depth : nat) (sources : list string)
  (destination : string) (st : state) : outcome * state :=
  for_each
    (fun name st =>
       if Os.isdir (disk st) name
       then read_dir depth name destination st
       else if Os.isfile (disk st) name
       then read_file depth (Path name) destination st
       else (Normal, st))
    sources st.

(** The three [print]s that end [main]; the percentage divides by
    [len(DB)]. *)
Definition report (st : state) : outcome * state :=
  let st := print (SmdbLists (size (DB st))) (print MsgDone st) in
  if (size (DB st) =? 0)%nat then (Raise ZeroDivisionError, st)
  else (Normal, print (FoundFiles (size (FOUND st)) (size (DB st))) st).

(** [main], once the arguments are taken apart: [lines] is what
    [readlines] gives for the manifest file.  [FOUND] is only ever
    emptied by a new process. *)
Definition main (depth : nat) (lines : list string) (destination : string)
  (sources : list string) (st : state) : outcome * state :=
  if negb (Os.isdir (disk st) destination)
  then (Normal, print (ErrNoDestination destination) st)
  else
    let '(loaded, db) := load_smdb lines in
    let st := State db (FOUND st) (disk st) (printed st) in
    match loaded with
    | Raise (ValueError e) => (Normal, print (ErrSmdb e) st)
    | Raise e => (Raise e, st)
    | Normal =>
        match read_sources depth sources destination st with
        | (Normal, st') => report st'
        | r => r
        end
    end.

(** A run of the program in a new process. *)
Definition run (depth : nat) (lines : list string) (destination : string)
  (sources : list string) (fs : filesystem) : outcome * state :=
  main depth lines destination sources (State ∅ ∅ fs []).

End Resolver.

(** ** The vocabulary of the properties *)

(** The order [sort(reverse=True)] leaves two neighbours in: the later
    one has no larger key. *)
Definition not_below (key : string -> string) (a b : string) : Prop :=
  Py.lt (key a) (key b) = false.

(** No line of [l] is a record of hash [h]. *)
Definition no_record (h : bytes) (l : list string) : Prop :=
  forall line f, line ∈ l -> parse_line line ≠ inr (h, f).

(** [line] is the last record of hash [h] in [l], and names [f]. *)
Definition last_record (h : bytes) (f : string) (l : list string) : Prop :=
  exists pre line post,
    l = pre ++ line :: post /\ parse_line line = inr (h, f) /\ no_record h post.

(** A component that names an entry: not empty, not a dot or two, and
    without a separator. *)
Definition entry_name (name : string) : Prop :=
  Os.trivial name = false /\ String.eqb name ".." = false
  /\ Py.has_sep name = false.

(** A step that adds nothing but directories. *)
Definition adds_dirs (fs fs' : filesystem) : Prop :=
  forall k nd, fs' !! k = Some nd -> fs !! k = Some nd \/ resolved nd = TDir.

(** Files and directories are added, never changed or removed; the index
    is left alone; [FOUND] gains hashes, and only keys of the index. *)
Definition evolves (st st' : state) : Prop :=
  disk st ⊆ disk st' /\ DB st' = DB st /\ FOUND st ⊆ FOUND st'
  /\ (FOUND st ⊆ dom (DB st) -> FOUND st' ⊆ dom (DB st')).

(** The target path of a hash exists, for a hash that has one. *)
Definition satisfied (destination : string) (db : index) (fs : filesystem)
  (h : bytes) : Prop :=
  forall filename, db !! h = Some filename ->
    Os.exists_ fs (Py.join destination filename) = true.

(** The outcomes of a pass that writes nothing. *)
Definition calm (o : outcome) : Prop := o = Normal \/ o = Raise RecursionError.

(** The outcomes of [read_archive] after which the caller goes on. *)
Definition passes (o : outcome) : Prop :=
  match o with Normal => True | Raise e => caught e = true end.

(** The traversal raises nothing but what the system and the stack raise. *)
Definition from_traversal (o : outcome) : Prop :=
  match o with
  | Raise ZeroDivisionError | Raise (ValueError _) => False
  | _ => True
  end.

(** Names that the walk and [glob] take literally, as a test. *)
Definition name_ok (c : string) : bool :=
  negb (Os.trivial c) && negb (String.eqb c "..")
  && negb (Py.has_sep c) && negb (Py.has_magic c).

(** Every component of every path of the file system is such a name. *)
Definition names_ok (fs : filesystem) : Prop :=
  map_Forall (fun (k : path) (_ : node) => forallb name_ok k = true) fs.

(** The node at [k] is a directory. *)
Definition dir_at (fs : filesystem) (k : path) : bool :=
  match Os.node_at fs k with Some TDir => true | _ => false end.

(** Every node lies in a directory. *)
Definition parent_closed (fs : filesystem) : Prop :=
  map_Forall (fun (k : path) (_ : node) => dir_at fs (removelast k) = true) fs.

(** Every node that was made since the file system was [fs0] is a
    directory, or a regular file that is the target of a record: its bytes
    have the hash of the record, and the path of the record leads to it. *)
Definition fresh_listed (destination : string) (fs0 : filesystem)
  (st : state) : Prop :=
  forall k nd, disk st !! k = Some nd -> fs0 !! k = None ->
    resolved nd = TDir
    \/ exists content filename,
         nd = Node false (TFile content)
         /\ DB st !! hash_mem content = Some filename
         /\ Os.lookup (disk st) (Py.join destination filename) = inr k.

(** Every hash in [FOUND] has its target path. *)
Definition found_present (destination : string) (st : state) : Prop :=
  forall h, h ∈ FOUND st -> satisfied destination (DB st) (disk st) h.

Section Vocabulary.

Context `{Harch : Libarchive, Hscan : Scandir}.

(** Containers that hold one entry each, [n] deep, around [leaf]. *)
Fixpoint nested (n : nat) (leaf wrapped : bytes) : Prop :=
  match n with
  | O => wrapped = leaf
  | S n' => exists inner, entries wrapped = ([inner], true) /\ nested n' leaf inner
  end.

(** A name that [glob] lists and that the walk takes literally. *)
Definition listed_name (name : string) : Prop :=
  entry_name name /\ hidden name = false /\ Py.has_magic name = false.

(** The step of [read_dir] and of the loop of [main] on one path. *)
Definition visit (depth : nat) (destination : string) (name : string)
  (st : state) : outcome * state :=
  if Os.isdir (disk st) name then read_dir depth name destination st
  else if Os.isfile (disk st) name
       then read_file depth (Path name) destination st
       else (Normal, st).

(** The body of the loop in [read_archive]: the entry as an archive, and
    as a file when the reader raises. *)
Definition read_blob (destination : string) (depth : nat) (content : bytes)
  (st : state)
  : outcome * state :=
  or_read_file content destination
    (read_archive depth (Buffer content) destination st).

(** The bytes were read once: whatever they hold has its target, and
    reading them again, at whatever depth and in whatever later state,
    changes no file. *)
Definition settled (destination : string) (db : index) (fs : filesystem)
  (content : bytes) : Prop :=
  forall depth st, fs ⊆ disk st -> DB st = db ->
    exists o st', read_blob destination depth content st = (o, st')
      /\ disk st' = disk st /\ DB st' = db /\ calm o.

(** Every file that the run has made since the file system was [fs0] holds
    bytes that are settled. *)
Definition fresh_settled (destination : string) (fs0 : filesystem)
  (st : state) : Prop :=
  forall k nd content,
    disk st !! k = Some nd -> resolved nd = TFile content -> fs0 !! k = None ->
    settled destination (DB st) (disk st) content.

(** In [fs], the files below the directory [k], through names that do not
    start with a dot, are settled. *)
Definition below_settled (destination : string) (db : index)
  (fs : filesystem) (k : path) : Prop :=
  forall names nd content,
    names <> [] ->
    Forall (fun n => hidden n = false) names ->
    fs !! (k ++ names) = Some nd ->
    resolved nd = TFile content ->
    (forall i, (i < length names)%nat ->
       Os.node_at fs (k ++ take i names) = Some TDir) ->
    settled destination db fs content.

(** The files that a visit of the source reads are settled. *)
Definition source_settled (destination : string) (db : index)
  (fs : filesystem) (name : string) : Prop :=
  (forall k, Os.lookup fs name = inr k -> Os.node_at fs k = Some TDir ->
     below_settled destination db fs k)
  /\ (forall content, Os.stat fs name = Some (TFile content) ->
        settled destination db fs content).

End Vocabulary.

(** ** A concrete system for the examples

    A toy container format (a [!] and then entries, each a length byte and
    that many bytes), a directory listing read off the map, and no
    wildcard expansion. *)

Module Toy.

Local Open Scope nat_scope.

Definition bang : Byte.byte := Byte.x21.

Fixpoint parse (budget : nat) (l : bytes) : list bytes * bool :=
  match budget, l with
  | _, [] => ([], true)
  | O, _ => ([], false)
  | S budget', n :: rest =>
      let k := N.to_nat (Byte.to_N n) in
      if length rest <? k then ([], false)
      else let '(es, ok) := parse budget' (drop k rest) in
           (take k rest :: es, ok)
  end.

Definition toy_entries (content : bytes) : list bytes * bool :=
  match content with
  | b :: rest => if decide (b = bang) then parse (length rest) rest else ([], false)
  | [] => ([], false)
  end.

Definition pack (es : list bytes) : bytes :=
  bang :: concat (map (fun e => byte_of_Z (Z.of_nat (length e)) :: e) es).

Definition toy_listdir (fs : filesystem) (d : path) : list string :=
  omap (fun kv : path * node =>
          if decide (removelast (fst kv) = d) then last (fst kv) else None)
       (map_to_list fs).

#[export] Instance toy_archive : Libarchive := {| entries := toy_entries |}.
#[export] Instance toy_scandir : Scandir :=
  {| listdir := toy_listdir; glob_magic := fun _ _ => [] |}.

Definition hex_char (n : nat) : ascii :=
  ascii_of_nat (if n <? 10 then 48 + n else 87 + n).

Fixpoint hexlify (l : bytes) : string :=
  match l with
  | [] => EmptyString
  | b :: rest =>
      let n := N.to_nat (Byte.to_N b) in
      String (hex_char (n / 16)) (String (hex_char (n mod 16)) (hexlify rest))
  end.

(** A manifest line for a blob: its SHA-256, the file name, and three
    more fields. *)
Definition smdb_line (content : bytes) (filename : string) : string :=
  (hexlify (hash_mem content) ++ String tab filename
   ++ String tab "sha1" ++ String tab "md5" ++ String tab "crc"
   ++ String newline EmptyString)%string.

Definition file (content : string) : node :=
  Node false (TFile (bytes_of_string content)).
Definition dir : node := Node false TDir.

End Toy.

(** ** Example inputs *)

Module Example.

Import Toy.
Local Open Scope string_scope.

Definition hello : bytes := bytes_of_string "hello".
Definition secret : bytes := bytes_of_string "secret".

(** One manifest record, and a state whose index holds it. *)
Definition manifest : list string := [smdb_line hello "games/a.rom"].
Definition db : index := snd (load_smdb manifest).

(** A source directory with a visible and a hidden file, and an empty
    destination. *)
Definition fs_start : filesystem :=
  list_to_map
    [ (["out"], dir); (["src"], dir);
      (["src"; "one.bin"], file "hello");
      (["src"; ".two.bin"], file "secret") ].

Definition manifest2 : list string :=
  [smdb_line hello "games/a.rom"; smdb_line secret "s.rom"].

(** The destination already has the target of [hello]. *)
Definition fs_done : filesystem :=
  list_to_map
    [ (["out"], dir); (["out"; "games"], dir);
      (["out"; "games"; "a.rom"], file "old");
      (["src"], dir); (["src"; "one.bin"], file "hello") ].

Definition st_done : state := State db ∅ fs_done [].

(** The destination has a regular file where a directory is needed. *)
Definition fs_blocked : filesystem :=
  list_to_map
    [ (["out"], dir); (["out"; "games"], file "x");
      (["src"], dir); (["src"; "one.bin"], file "hello") ].

(** Two records of one hash. *)
Definition manifest_dup : list string :=
  [smdb_line hello "a.rom"; smdb_line hello "b.rom"].

(** A record with two fields only, and a record whose first field has
    64 characters, two of them spaces. *)
Definition sha_hello : string := hexlify (hash_mem hello).
Definition manifest_short : list string :=
  [sha_hello ++ String tab "a.rom" ++ String newline ""].
Definition spaced : string :=
  "2c f2 4dba5fb0a30e26e83b2ac5b9e29e1b161e5c1fa7425e73043362938b98".
Definition manifest_spaced : list string :=
  [spaced ++ String tab "a.rom" ++ String tab "sha1" ++ String tab "md5"
   ++ String tab "crc" ++ String newline ""].

Definition db_dup : index := snd (load_smdb manifest_dup).

Definition db2 : index := snd (load_smdb manifest2).
Definition st_start2 : state := State db2 ∅ fs_start [].

(** Two sources; the path of the first leads through a directory of the
    destination that only the second source makes the run create. *)
Definition deep : bytes := bytes_of_string "deep".
Definition fs_detour : filesystem :=
  list_to_map
    [ (["out"], dir); (["src"], dir); (["src"; "g"], file "hello");
      (["src2"], dir); (["src2"; "f"], file "deep") ].
Definition manifest_detour : list string :=
  [smdb_line hello "g.rom"; smdb_line deep "x/f.rom"].
Definition sources_detour : list string := ["out/x/../../src"; "src2"].

(** A source directory whose only entry is a symbolic link to a file. *)
Definition fs_link : filesystem :=
  list_to_map
    [ (["out"], dir); (["src"], dir);
      (["src"; "link.bin"], Node true (TFile hello)) ].

(** The first field of a record, and the digest format that the
    specification words as 64 hexadecimal characters. *)
Definition hash_field (line : string) : string :=
  hd "" (Py.split tab 4 (Py.strip line)).

Definition well_formed_hash (s : string) : bool :=
  (String.length s =? 64)%nat
  && forallb (fun c => match Py.hex_digit c with Some _ => true | None => false end)
       (list_ascii_of_string s).

(** The leaf in one, two and three containers, as files. *)
Definition wrap1 : bytes := pack [hello].
Definition wrap2 : bytes := pack [wrap1].
Definition wrap3 : bytes := pack [wrap2].
Definition fs_nested : filesystem :=
  list_to_map
    [ (["out"], dir);
      (["bare.bin"], Node false (TFile hello));
      (["three.toy"], Node false (TFile wrap3)) ].
Definition st_nested : state := State db ∅ fs_nested [].

(** A manifest whose only record is of a file that no listing shows. *)
Definition manifest_secret : list string := [smdb_line secret "s.rom"].

(** A container cut short after its first entry. *)
Definition broken : bytes := pack [hello] ++ [Byte.x09].
Definition fs_broken : filesystem :=
  list_to_map [ (["out"], dir); (["cut.toy"], Node false (TFile broken)) ].
Definition st_broken : state := State db ∅ fs_broken [].

(** The key of the record with the spaced first field. *)
Definition line_spaced : string := hd "" manifest_spaced.
Definition key_spaced : bytes := default [] (Py.fromhex spaced).

(** A record whose file name starts at the root. *)
Definition manifest_abs : list string := [smdb_line hello "/abs.rom"].
Definition st_abs : state := State (snd (load_smdb manifest_abs)) ∅ fs_start [].

(** The directory of the target is there, the target is not. *)
Definition fs_ready : filesystem :=
  list_to_map
    [ (["out"], dir); (["out"; "games"], dir);
      (["src"], dir); (["src"; "one.bin"], file "hello") ].
Definition st_ready : state := State db ∅ fs_ready [].

(** States of a new process. *)
Definition st_start : state := State ∅ ∅ fs_start [].

Definition st_blocked : state := State ∅ ∅ fs_blocked [].
Definition st_blocked_loaded : state :=
  State db (FOUND st_blocked) (disk st_blocked) (printed st_blocked).

End Example.

(** * Properties *)

(** ** Hashing *)

Section Hashing.

Import Sha256.

Lemma update_app o a b : update o (a ++ b) = update (update o a) b.
Proof. unfold update. apply fold_left_app. Qed.

Lemma chunk_size_pos : (0 < chunk_size)%nat.
Proof. unfold chunk_size. lia. Qed.

Opaque chunk_size.

Lemma hash_loop_clause f h c r (e : f_read chunk_size f = (c, r)) :
  hash_loop_unfold_clause_1 f ((c, r) ↾ e) h =
  match c with
  | [] => h
  | b :: l => hash_loop r (update h (b :: l))
  end.
Proof. destruct c; simp hash_loop; reflexivity. Qed.

Lemma hash_loop_step f h :
  hash_loop f h =
  match take chunk_size f with
  | [] => h
  | b :: l => hash_loop (drop chunk_size f) (update h (b :: l))
  end.
Proof.
  simp hash_loop. unfold inspect, f_read.
  exact (hash_loop_clause f h _ _ eq_refl).
Qed.

(** The chunked loop absorbs the whole file. *)
Lemma hash_loop_update f : forall h, hash_loop f h = update h f.
Proof.
  remember (length f) as n eqn:Hn. revert f Hn.
  induction n as [n IH] using lt_wf_ind. intros f -> h.
  rewrite hash_loop_step.
  destruct (take chunk_size f) as [|c chunk] eqn:E.
  - pose proof chunk_size_pos.
    destruct f; [reflexivity|]. destruct chunk_size; [lia|discriminate].
  - rewrite (IH (length (drop chunk_size f))); [| |reflexivity].
    + rewrite <- E, <- update_app, take_drop. reflexivity.
    + pose proof chunk_size_pos. rewrite length_drop.
      destruct f; [rewrite take_nil in E; discriminate|]. simpl. lia.
Qed.

(** Bytes that do not fill the block stay in the buffer. *)
Lemma update_short l : forall h p t,
  (length p + length l < 64)%nat ->
  update (Obj h p t) l = Obj h (p ++ l) (t + Z.of_nat (length l)).
Proof.
  induction l as [|x l IH]; intros h p t Hlen.
  - simpl. rewrite app_nil_r, Z.add_0_r. reflexivity.
  - change (update (Obj h p t) (x :: l))
      with (update (absorb (Obj h p t) x) l).
    unfold absorb. cbn [pending chain total].
    cbn [length] in Hlen.
    destruct (Nat.eqb_spec (length (p ++ [x])) 64) as [E|_].
    + rewrite length_app in E. cbn [length] in E. lia.
    + rewrite IH.
      * rewrite <- app_assoc. cbn [length app]. f_equal. lia.
      * rewrite length_app. cbn [length]. lia.
Qed.

(** A whole block from an empty buffer is compressed. *)
Lemma update_block blk h t :
  length blk = 64%nat ->
  update (Obj h [] t) blk = Obj (compress h blk) [] (t + 64).
Proof.
  intros Hlen.
  destruct (List.exists_last (l := blk)) as (l & x & ->).
  { intros ->. discriminate. }
  rewrite length_app in Hlen. simpl in Hlen.
  rewrite update_app, update_short by (simpl; lia).
  simpl. unfold absorb. simpl.
  destruct (Nat.eqb_spec (length (l ++ [x])) 64) as [_|E].
  - f_equal. lia.
  - rewrite length_app in E. simpl in E. lia.
Qed.

(** Block after block, the object follows the chaining of the standard. *)
Lemma update_blocks n : forall l h t,
  length l = (64 * n)%nat ->
  update (Obj h [] t) l = Obj (hash_blocks n h l) [] (t + Z.of_nat (length l)).
Proof.
  induction n as [|n IH]; intros l h t Hlen.
  - destruct l; [|discriminate]. simpl. f_equal. lia.
  - rewrite <- (take_drop 64 l) at 1. rewrite update_app.
    rewrite update_block by (rewrite length_take; lia).
    rewrite IH by (rewrite length_drop; lia).
    simpl. f_equal. rewrite length_drop. lia.
Qed.

Lemma total_update l : forall o, total (update o l) = total o + Z.of_nat (length l).
Proof.
  induction l as [|x l IH]; intros o; [simpl; lia|].
  change (update o (x :: l)) with (update (absorb o x) l).
  rewrite IH. cbn [length]. unfold absorb.
  destruct (_ =? _)%nat; cbn [total]; lia.
Qed.

Lemma length_padding n :
  0 <= n -> (Z.of_nat (length (padding n)) + n) mod 64 = 0.
Proof.
  intros Hn. unfold padding, length_bytes. simpl.
  rewrite length_app, repeat_length. simpl.
  pose proof (Z.mod_pos_bound (55 - n) 64 ltac:(lia)) as Hb.
  rewrite Nat2Z.inj_succ, Nat2Z.inj_add, Z2Nat.id by lia.
  replace (Z.succ ((55 - n) mod 64 + Z.of_nat 8) + n)
    with ((55 - n) mod 64 + (n + 9)) by lia.
  rewrite Zplus_mod_idemp_l. replace (55 - n + (n + 9)) with (1 * 64) by lia.
  apply Z_mod_mult.
Qed.

(** The hash object computes the digest of the standard. *)
Lemma digest_update msg : digest (update new msg) = reference msg.
Proof.
  unfold digest, reference.
  rewrite total_update. change (total new) with 0. rewrite Z.add_0_l.
  rewrite <- update_app.
  set (padded := msg ++ padding (Z.of_nat (length msg))).
  assert (Hlen : length padded = (64 * (length padded / 64))%nat).
  { pose proof (length_padding (Z.of_nat (length msg)) ltac:(lia)) as Hp.
    assert (Hm : (length padded mod 64 = 0)%nat).
    { unfold padded. rewrite length_app.
      apply Nat2Z.inj. rewrite Nat2Z.inj_mod, Nat2Z.inj_add.
      rewrite Z.add_comm. exact Hp. }
    pose proof (Nat.div_mod_eq (length padded) 64). lia. }
  unfold new. rewrite (update_blocks _ _ _ _ Hlen). reflexivity.
Qed.

End Hashing.

(** ** The manifest index *)

Section Manifest.

Lemma lt_asym a b : Py.lt a b = true -> Py.lt b a = false.
Proof.
  unfold Py.lt, String.ltb. rewrite (String.compare_antisym b a).
  destruct (String.compare a b); simpl; congruence.
Qed.

Lemma lt_irrefl a : Py.lt a a = false.
Proof.
  destruct (Py.lt a a) eqn:E; [|reflexivity].
  pose proof (lt_asym _ _ E). congruence.
Qed.

Lemma insert_desc_perm key x l : Py.insert_desc key x l ≡ₚ x :: l.
Proof.
  induction l as [|y l IH]; simpl; [reflexivity|].
  destruct (Py.lt (key x) (key y)); [|reflexivity].
  rewrite IH. apply Permutation_swap.
Qed.

Lemma sort_reverse_perm key l : Py.sort_reverse key l ≡ₚ l.
Proof.
  induction l as [|x l IH]; simpl; [reflexivity|].
  rewrite insert_desc_perm, IH. reflexivity.
Qed.

Lemma insert_desc_hd key x y l :
  Py.lt (key x) (key y) = true ->
  HdRel (not_below key) y l ->
  HdRel (not_below key) y (Py.insert_desc key x l).
Proof.
  intros Hxy Hhd. destruct l as [|z l]; simpl.
  - constructor. apply lt_asym, Hxy.
  - inversion Hhd; subst.
    destruct (Py.lt (key x) (key z)); constructor; auto.
    apply lt_asym, Hxy.
Qed.

Lemma insert_desc_sorted key x l :
  Sorted (not_below key) l -> Sorted (not_below key) (Py.insert_desc key x l).
Proof.
  induction 1 as [|y l Hs IH Hhd]; simpl.
  - repeat constructor.
  - destruct (Py.lt (key x) (key y)) eqn:E.
    + constructor; [exact IH|]. apply insert_desc_hd; assumption.
    + constructor; [constructor; assumption|]. constructor. exact E.
Qed.

Lemma sort_reverse_sorted key l : Sorted (not_below key) (Py.sort_reverse key l).
Proof.
  induction l as [|x l IH]; simpl; [constructor|].
  apply insert_desc_sorted, IH.
Qed.

(** Stability: the lines of one key come out in the order they went in. *)
Lemma insert_desc_stable key k x l :
  filter (fun y => key y = k) (Py.insert_desc key x l)
  = filter (fun y => key y = k) (x :: l).
Proof.
  induction l as [|y l IH]; simpl; [reflexivity|].
  destruct (Py.lt (key x) (key y)) eqn:E; [|reflexivity].
  rewrite !filter_cons in *. rewrite IH.
  destruct (decide (key x = k)) as [Hx|Hx];
    destruct (decide (key y = k)) as [Hy|Hy]; try reflexivity.
  rewrite Hx, Hy, lt_irrefl in E. discriminate.
Qed.

Lemma sort_reverse_stable key k l :
  filter (fun y => key y = k) (Py.sort_reverse key l)
  = filter (fun y => key y = k) l.
Proof.
  induction l as [|x l IH]; simpl; [reflexivity|].
  rewrite insert_desc_stable, !filter_cons, IH. reflexivity.
Qed.

Lemma load_lines_lookup l : forall db db' h f,
  load_lines l db = (Normal, db') ->
  db' !! h = Some f <->
  last_record h f l \/ (db !! h = Some f /\ no_record h l).
Proof.
  induction l as [|line rest IH]; intros db db' h f Hload; simpl in Hload.
  - injection Hload as <-. split.
    + intros Hdb. right. split; [exact Hdb|]. intros ? ? Hin. inversion Hin.
    + intros [(pre & ? & ? & Heq & _)|[Hdb _]]; [|exact Hdb].
      destruct pre; discriminate.
  - destruct (parse_line line) as [e|[k name]] eqn:Hp; [discriminate|].
    rewrite (IH _ _ h f Hload). split.
    + intros [(pre & l' & post & -> & Hl' & Hno)|[Hins Hno]].
      * left. exists (line :: pre), l', post. auto.
      * destruct (decide (k = h)) as [->|Hne].
        -- rewrite lookup_insert_eq in Hins. injection Hins as ->.
           left. exists [], line, rest. auto.
        -- rewrite lookup_insert_ne in Hins by exact Hne.
           right. split; [exact Hins|].
           intros l' f' Hin. apply elem_of_cons in Hin as [->|Hin].
           ++ rewrite Hp. congruence.
           ++ apply Hno, Hin.
    + intros [(pre & l' & post & Heq & Hl' & Hno)|[Hdb Hno]].
      * destruct pre as [|x pre]; simpl in Heq.
        -- injection Heq as <- <-. right. split; [|exact Hno].
           rewrite Hp in Hl'. injection Hl' as -> ->.
           apply lookup_insert_eq.
        -- injection Heq as <- ->. left. exists pre, l', post. auto.
      * right. split.
        -- rewrite lookup_insert_ne; [exact Hdb|].
           intros ->. eapply (Hno line); [left|exact Hp].
        -- intros l' f' Hin. apply Hno. right. exact Hin.
Qed.

(** [load_lines] raises exactly when some line does not parse, and the
    error is the one of the first such line. *)
Lemma load_lines_raises l : forall db,
  (exists e db', load_lines l db = (Raise e, db')) <->
  (exists line e, line ∈ l /\ parse_line line = inl e).
Proof.
  induction l as [|line rest IH]; intros db; simpl.
  - split.
    + intros (e & db' & Heq). discriminate.
    + intros (line & e & Hin & _). inversion Hin.
  - destruct (parse_line line) as [e|[k name]] eqn:Hp.
    + split; [|eauto]. intros _. exists line, e. split; [left|exact Hp].
    + rewrite IH. split.
      * intros (l' & e & Hin & Hl'). exists l', e. split; [right|]; assumption.
      * intros (l' & e & Hin & Hl'). apply elem_of_cons in Hin as [->|Hin].
        -- congruence.
        -- eauto.
Qed.

Lemma load_lines_outcome l : forall db o db',
  load_lines l db = (o, db') ->
  o = Normal \/ exists e, o = Raise (ValueError e).
Proof.
  induction l as [|line rest IH]; intros db o db' Hload; simpl in Hload.
  - injection Hload as <- _. auto.
  - destruct (parse_line line) as [e|[k name]].
    + injection Hload as <- _. eauto.
    + eapply IH, Hload.
Qed.

End Manifest.

(** ** Path strings *)

Section PathStrings.

Local Open Scope string_scope.

Lemma fields_not_nil s : Os.fields s <> [].
Proof.
  destruct s as [|c s]; simpl; [discriminate|].
  destruct (Ascii.eqb c "/"); [discriminate|].
  destruct (Os.fields s); discriminate.
Qed.

Lemma app_cons_str c (a b : string) : String c a ++ b = String c (a ++ b).
Proof. reflexivity. Qed.

Lemma app_assoc_str (a b c : string) : (a ++ b) ++ c = a ++ (b ++ c).
Proof.
  induction a as [|x a IH]; [reflexivity|].
  rewrite !app_cons_str, IH. reflexivity.
Qed.

(** A separator between two strings separates their fields. *)
Lemma fields_app_sep a b :
  Os.fields (a ++ String "/" b) = (Os.fields a ++ Os.fields b)%list.
Proof.
  induction a as [|c a IH]; [reflexivity|].
  rewrite app_cons_str. cbn [Os.fields].
  destruct (Ascii.eqb c "/"); rewrite IH; [reflexivity|].
  pose proof (fields_not_nil a).
  destruct (Os.fields a); [congruence|reflexivity].
Qed.

Lemma fields_no_sep s : Py.has_sep s = false -> Os.fields s = [s].
Proof.
  induction s as [|c s IH]; simpl; [reflexivity|].
  intros [Hc Hs]%orb_false_iff. rewrite Hc, (IH Hs). reflexivity.
Qed.


(** The head of [dirname] and the last field. *)
Lemma head_split s :
  Py.has_sep s = true ->
  exists a tail, s = a ++ String "/" tail /\ Py.has_sep tail = false
                 /\ Py.head s = a ++ String "/" "".
Proof.
  induction s as [|c s IH]; [discriminate|].
  intros Hs. cbn [Py.head]. rewrite Hs.
  destruct (Py.has_sep s) eqn:Hrest.
  - destruct (IH eq_refl) as (a & tail & -> & Htail & ->).
    exists (String c a), tail. auto.
  - simpl in Hs. rewrite Hrest, orb_false_r in Hs.
    apply Ascii.eqb_eq in Hs as ->.
    exists "", s. repeat split; [exact Hrest|].
    destruct s; simpl; [reflexivity|]. simpl in Hrest. rewrite Hrest. reflexivity.
Qed.

Lemma head_no_sep s : Py.has_sep s = false -> Py.head s = "".
Proof. destruct s; simpl; [reflexivity|]. intros ->. reflexivity. Qed.

Lemma fields_all_sep s :
  Py.all_sep s = true -> Os.fields s = repeat "" (S (String.length s)).
Proof.
  induction s as [|c s IH]; simpl; [reflexivity|].
  intros [Hc Hs]%andb_true_iff. rewrite Hc, (IH Hs). reflexivity.
Qed.

(** Removing the separators at the end removes empty fields at the end. *)
Lemma fields_rstrip_sep s :
  exists k, Os.fields s = (Os.fields (Py.rstrip_sep s) ++ repeat "" k)%list.
Proof.
  induction s as [|c s IH]; [exists O; reflexivity|].
  cbn [Py.rstrip_sep]. destruct (Py.all_sep (String c s)) eqn:Hall.
  - exists (S (String.length s)). rewrite (fields_all_sep _ Hall). reflexivity.
  - destruct IH as [k IH]. exists k. simpl.
    destruct (Ascii.eqb c "/"); rewrite IH; [reflexivity|].
    pose proof (fields_not_nil (Py.rstrip_sep s)).
    destruct (Os.fields (Py.rstrip_sep s)); [congruence|reflexivity].
Qed.

Lemma filter_repeat_empty k : filter (fun c => Os.trivial c = false) (repeat "" k) = [].
Proof. induction k; simpl; [reflexivity|]. rewrite filter_cons. simpl. exact IHk. Qed.

(** The parts of the directory name are the parts before the last field. *)
Lemma parts_dirname s :
  Os.parts (Py.dirname s)
  = filter (fun c => Os.trivial c = false) (removelast (Os.fields s)).
Proof.
  unfold Os.parts, Py.dirname.
  destruct (Py.has_sep s) eqn:Hs.
  - destruct (head_split s Hs) as (a & tail & -> & Htail & ->).
    rewrite fields_app_sep, (fields_no_sep _ Htail).
    rewrite removelast_last.
    assert (Hhead : filter (fun c => Os.trivial c = false)
                      (Os.fields (a ++ String "/" ""))
                    = filter (fun c => Os.trivial c = false) (Os.fields a)).
    { rewrite fields_app_sep. simpl. rewrite filter_app.
      rewrite filter_cons. simpl. apply app_nil_r. }
    destruct (Py.all_sep (a ++ String "/" "")); [exact Hhead|].
    destruct (fields_rstrip_sep (a ++ String "/" "")) as [k Hk].
    rewrite <- Hhead, Hk, filter_app, filter_repeat_empty, app_nil_r.
    reflexivity.
  - rewrite (head_no_sep _ Hs), (fields_no_sep _ Hs). reflexivity.
Qed.

Lemma entry_name_not_sep name : entry_name name -> Py.startswith_sep name = false.
Proof.
  intros (_ & _ & Hs). destruct name as [|c name]; [reflexivity|].
  simpl in *. apply orb_false_iff in Hs as [-> _]. reflexivity.
Qed.

Lemma endswith_sep_split s :
  Py.endswith_sep s = true -> exists a, s = a ++ String "/" "".
Proof.
  induction s as [|c s IH]; [discriminate|].
  destruct s as [|d s].
  - simpl. intros ->%Ascii.eqb_eq. exists "". reflexivity.
  - intros Hs. destruct (IH Hs) as [a Ha]. exists (String c a).
    rewrite app_cons_str, <- Ha. reflexivity.
Qed.

(** The fields of a directory joined with a name: the fields of the
    directory, one empty field at its end dropped, and the name. *)
Lemma fields_join dir name :
  entry_name name -> dir <> "" ->
  exists pre, Os.fields (Py.join dir name) = (pre ++ [name])%list
    /\ (Os.fields dir = pre \/ Os.fields dir = (pre ++ [""])%list).
Proof.
  intros Hname Hdir. unfold Py.join.
  rewrite (entry_name_not_sep _ Hname).
  destruct (String.eqb_spec dir ""); [congruence|]. simpl.
  destruct Hname as (_ & _ & Hsep).
  destruct (Py.endswith_sep dir) eqn:He.
  - destruct (endswith_sep_split _ He) as [a ->].
    exists (Os.fields a). rewrite app_assoc_str, app_cons_str.
    change ("" ++ name) with name.
    rewrite !fields_app_sep, (fields_no_sep _ Hsep). simpl. auto.
  - exists (Os.fields dir).
    rewrite fields_app_sep, (fields_no_sep _ Hsep). auto.
Qed.

End PathStrings.

(** ** The file system only grows *)

Section FileSystem.

Implicit Types (fs : filesystem) (k cur : path) (s : string).

Lemma node_at_mono fs fs' k t :
  fs ⊆ fs' -> Os.node_at fs k = Some t -> Os.node_at fs' k = Some t.
Proof.
  intros Hsub. destruct k as [|c k]; [auto|]. unfold Os.node_at.
  destruct (fs !! (c :: k)) as [n|] eqn:E; [|discriminate].
  rewrite (lookup_weaken _ _ _ _ E Hsub). auto.
Qed.

Lemma namei_mono fs fs' comps : forall cur k,
  fs ⊆ fs' -> Os.namei fs cur comps = inr k -> Os.namei fs' cur comps = inr k.
Proof.
  induction comps as [|c comps IH]; intros cur k Hsub; simpl; [auto|].
  destruct (Os.node_at fs cur) as [[| |]|] eqn:E; try discriminate.
  rewrite (node_at_mono _ _ _ _ Hsub E). apply IH, Hsub.
Qed.

Lemma namei_app fs a : forall cur b,
  Os.namei fs cur (a ++ b) =
  match Os.namei fs cur a with
  | inl e => inl e
  | inr k => Os.namei fs k b
  end.
Proof.
  induction a as [|c a IH]; intros cur b; simpl; [reflexivity|].
  destruct (Os.node_at fs cur) as [[| |]|]; auto.
Qed.

(** Dropping the components that name nothing keeps the walk. *)
Lemma namei_parts fs comps : forall cur k,
  Os.namei fs cur comps = inr k ->
  Os.namei fs cur (filter (fun c => Os.trivial c = false) comps) = inr k.
Proof.
  induction comps as [|c comps IH]; intros cur k; simpl; [auto|].
  destruct (Os.node_at fs cur) as [[| |]|] eqn:E; try discriminate.
  intros Hw. rewrite filter_cons. unfold Os.step in Hw.
  destruct (Os.trivial c) eqn:Ht; simpl.
  - apply IH, Hw.
  - rewrite E. unfold Os.step. rewrite Ht. apply IH, Hw.
Qed.

Lemma lookup_mono fs fs' s k :
  fs ⊆ fs' -> Os.lookup fs s = inr k -> Os.lookup fs' s = inr k.
Proof.
  unfold Os.lookup. destruct (String.eqb s ""); [discriminate|].
  apply namei_mono.
Qed.

Lemma stat_mono fs fs' s t :
  fs ⊆ fs' -> Os.stat fs s = Some t -> Os.stat fs' s = Some t.
Proof.
  unfold Os.stat. intros Hsub.
  destruct (Os.lookup fs s) as [e|k] eqn:E; [discriminate|].
  rewrite (lookup_mono _ _ _ _ Hsub E). apply node_at_mono, Hsub.
Qed.

Lemma read_stat fs s c : Os.read fs s = inr c <-> Os.stat fs s = Some (TFile c).
Proof.
  unfold Os.read, Os.stat.
  destruct (Os.lookup fs s) as [e|k]; [split; discriminate|].
  destruct (Os.node_at fs k) as [[| |]|]; split; congruence.
Qed.

Lemma isfile_stat fs s :
  Os.isfile fs s = true <-> exists c, Os.stat fs s = Some (TFile c).
Proof.
  unfold Os.isfile. destruct (Os.stat fs s) as [[| |]|]; split;
    try discriminate; eauto; intros [c Hc]; discriminate.
Qed.

Lemma isdir_stat fs s : Os.isdir fs s = true <-> Os.stat fs s = Some TDir.
Proof.
  unfold Os.isdir. destruct (Os.stat fs s) as [[| |]|]; split; congruence.
Qed.

Lemma exists_stat fs s : Os.exists_ fs s = true <-> is_Some (Os.stat fs s).
Proof.
  unfold Os.exists_. destruct (Os.stat fs s); split; eauto.
  - discriminate.
  - intros [? ?]. discriminate.
Qed.

Lemma exists_mono fs fs' s :
  fs ⊆ fs' -> Os.exists_ fs s = true -> Os.exists_ fs' s = true.
Proof.
  rewrite !exists_stat. intros Hsub [t Ht]. exists t. eapply stat_mono; eauto.
Qed.

Lemma fields_removelast s :
  exists name, last (Os.fields s) = Some name
    /\ Os.fields s = removelast (Os.fields s) ++ [name].
Proof.
  pose proof (fields_not_nil s) as Hne.
  destruct (exists_last Hne) as (ini & name & ->).
  exists name. rewrite last_snoc, removelast_last. auto.
Qed.

(** The slot of a walk that ends in a component. *)
Lemma slot_snoc fs ini name :
  Os.slot fs (ini ++ [name]) =
  match Os.namei fs [] ini with
  | inl e => inl e
  | inr cur =>
      match Os.node_at fs cur with
      | Some TDir => inr (cur, name)
      | Some _ => inl NotADirectoryError
      | None => inl FileNotFoundError
      end
  end.
Proof. unfold Os.slot. rewrite last_snoc, removelast_last. reflexivity. Qed.

Lemma namei_snoc fs ini name :
  Os.namei fs [] (ini ++ [name]) =
  match Os.slot fs (ini ++ [name]) with
  | inl e => inl e
  | inr (cur, _) => inr (Os.step cur name)
  end.
Proof.
  rewrite slot_snoc, namei_app.
  destruct (Os.namei fs [] ini) as [e|cur]; [reflexivity|]. simpl.
  destruct (Os.node_at fs cur) as [[| |]|]; reflexivity.
Qed.

Lemma slot_mono fs fs' comps r :
  fs ⊆ fs' -> Os.slot fs comps = inr r -> Os.slot fs' comps = inr r.
Proof.
  unfold Os.slot. intros Hsub. destruct (last comps); [|discriminate].
  destruct (Os.namei fs [] (removelast comps)) as [e|cur] eqn:E; [discriminate|].
  rewrite (namei_mono _ _ _ _ _ Hsub E).
  destruct (Os.node_at fs cur) as [[| |]|] eqn:En; try discriminate.
  rewrite (node_at_mono _ _ _ _ Hsub En). auto.
Qed.

Lemma step_entry cur name :
  Os.trivial name = false -> String.eqb name ".." = false ->
  Os.step cur name = cur ++ [name].
Proof. unfold Os.step. intros -> ->. reflexivity. Qed.

Lemma node_at_snoc fs cur name :
  Os.node_at fs (cur ++ [name]) = resolved <$> fs !! (cur ++ [name]).
Proof. destruct cur; reflexivity. Qed.

(** [os.mkdir] adds one directory where nothing was. *)
Lemma mkdir_grows fs ps fs' : Os.mkdir fs ps = inr fs' -> fs ⊆ fs'.
Proof.
  unfold Os.mkdir. destruct ps as [|p ps]; [discriminate|].
  destruct (Os.slot fs (p :: ps)) as [e|[cur name]]; [discriminate|].
  destruct (String.eqb name ".."); [discriminate|].
  destruct (fs !! (cur ++ [name])) eqn:E; [discriminate|].
  intros [= <-]. apply insert_subseteq, E.
Qed.

Lemma path_mkdir_grows n : forall ps fs r fs',
  path_mkdir n ps fs = (r, fs') -> fs ⊆ fs'.
Proof.
  induction n as [|n IH]; intros ps fs r fs'; cbn [path_mkdir].
  - destruct (Os.mkdir fs (take 0 ps)) as [e|fs1] eqn:E.
    + destruct e; try destruct (Os.parts_isdir fs (take 0 ps));
        intros [= _ <-]; reflexivity.
    + intros [= _ <-]. eapply mkdir_grows, E.
  - destruct (Os.mkdir fs (take (S n) ps)) as [e|fs1] eqn:E.
    + assert (Hother : forall r fs',
                (if Os.parts_isdir fs (take (S n) ps)
                 then (None, fs) else (Some e, fs)) = (r, fs') -> fs ⊆ fs').
      { intros ? ?.
        destruct (Os.parts_isdir fs (take (S n) ps)); intros [= _ <-];
          reflexivity. }
      destruct e; try apply Hother.
      destruct (path_mkdir n ps fs) as [[e1|] fs1] eqn:E1.
      * intros [= _ <-]. eapply IH, E1.
      * pose proof (IH _ _ _ _ E1) as H1.
        destruct (Os.mkdir fs1 (take (S n) ps)) as [e2|fs2] eqn:E2.
        -- destruct e2; try destruct (Os.parts_isdir fs1 (take (S n) ps));
             intros [= _ <-]; exact H1.
        -- intros [= _ <-]. etrans; [exact H1|]. eapply mkdir_grows, E2.
    + intros [= _ <-]. eapply mkdir_grows, E.
Qed.

(** A path that is a directory already: nothing is made, nothing raised. *)
Lemma mkdir_existing fs ps :
  Forall (fun c => Os.trivial c = false) ps ->
  Os.parts_isdir fs ps = true ->
  Os.mkdir fs ps = inl FileExistsError.
Proof.
  intros Hps Hdir. destruct ps as [|p ps] using rev_ind; [reflexivity|].
  clear IHps. unfold Os.parts_isdir in Hdir. rewrite namei_snoc in Hdir.
  unfold Os.mkdir.
  destruct (ps ++ [p]) as [|x l] eqn:Eps; [destruct ps; discriminate|].
  rewrite <- Eps in *. clear x l Eps.
  destruct (Os.slot fs (ps ++ [p])) as [e|[cur name]] eqn:Es; [discriminate|].
  rewrite slot_snoc in Es.
  assert (name = p) as ->.
  { destruct (Os.namei fs [] ps) as [?|k0]; [discriminate|].
    destruct (Os.node_at fs k0) as [[| |]|]; congruence. }
  apply Forall_app in Hps as [_ Hp]. inversion Hp as [|? ? Hp' _]; subst.
  destruct (String.eqb p "..") eqn:Edd; [reflexivity|].
  rewrite (step_entry _ _ Hp' Edd), node_at_snoc in Hdir.
  destruct (fs !! (cur ++ [p])); [reflexivity|discriminate].
Qed.

Lemma path_mkdir_existing fs ps :
  Forall (fun c => Os.trivial c = false) ps ->
  Os.parts_isdir fs ps = true ->
  path_mkdir (length ps) ps fs = (None, fs).
Proof.
  intros Hps Hdir.
  assert (Ht : take (length ps) ps = ps) by apply firstn_all.
  destruct (length ps); cbn [path_mkdir];
    rewrite Ht, (mkdir_existing _ _ Hps Hdir), Hdir; reflexivity.
Qed.

Lemma parts_proper s : Forall (fun c => Os.trivial c = false) (Os.parts s).
Proof.
  unfold Os.parts. apply Forall_forall. intros c Hc.
  apply list_elem_of_filter in Hc. tauto.
Qed.

(** The directory of a path that exists is a directory. *)
Lemma dirname_isdir fs s t :
  Os.stat fs s = Some t -> Os.parts_isdir fs (Os.parts (Py.dirname s)) = true.
Proof.
  unfold Os.stat, Os.lookup. destruct (String.eqb s ""); [discriminate|].
  destruct (fields_removelast s) as (name & _ & Hf).
  rewrite parts_dirname. rewrite Hf at 1. rewrite namei_snoc, slot_snoc.
  unfold Os.parts_isdir.
  destruct (Os.namei fs [] (removelast (Os.fields s))) as [e|cur] eqn:E;
    [discriminate|].
  rewrite (namei_parts _ _ _ _ E).
  destruct (Os.node_at fs cur) as [[| |]|]; try discriminate. reflexivity.
Qed.

Lemma mkdir_parents_existing fs s t :
  Os.stat fs s = Some t -> mkdir_parents (Py.dirname s) fs = (None, fs).
Proof.
  intros Hs. unfold mkdir_parents.
  apply path_mkdir_existing; [apply parts_proper|].
  eapply dirname_isdir, Hs.
Qed.

Lemma mkdir_parents_grows dir fs r fs' :
  mkdir_parents dir fs = (r, fs') -> fs ⊆ fs'.
Proof. apply path_mkdir_grows. Qed.

(** Writing where nothing exists makes one file and keeps the rest. *)
Lemma write_fresh_at fs s content fs' :
  Os.exists_ fs s = false ->
  Os.write fs s content = inr fs' ->
  exists key, fs !! key = None
    /\ fs' = <[key := Node false (TFile content)]> fs
    /\ Os.stat fs' s = Some (TFile content).
Proof.
  unfold Os.exists_, Os.stat, Os.lookup, Os.write.
  destruct (String.eqb s ""); [discriminate|].
  destruct (fields_removelast s) as (name & _ & Hf). rewrite Hf.
  rewrite namei_snoc.
  destruct (Os.slot fs (removelast (Os.fields s) ++ [name]))
    as [e|[cur name']] eqn:Es; [discriminate|].
  assert (name' = name) as ->.
  { rewrite slot_snoc in Es.
    destruct (Os.namei fs [] (removelast (Os.fields s))) as [?|k0];
      [discriminate|].
    destruct (Os.node_at fs k0) as [[| |]|]; congruence. }
  destruct (Os.trivial name) eqn:Ht; [discriminate|].
  destruct (String.eqb name "..") eqn:Edd; [discriminate|]. simpl.
  rewrite (step_entry _ _ Ht Edd), node_at_snoc.
  destruct (fs !! (cur ++ [name])) as [n|] eqn:E; [discriminate|].
  intros _ [= <-]. exists (cur ++ [name]). split_and!; [exact E|reflexivity|].
  assert (Hsub : fs ⊆ <[cur ++ [name] := Node false (TFile content)]> fs)
    by apply insert_subseteq, E.
  rewrite namei_snoc, (slot_mono _ _ _ _ Hsub Es).
  rewrite (step_entry _ _ Ht Edd), node_at_snoc.
  rewrite lookup_insert_eq. reflexivity.
Qed.

Lemma write_fresh fs s content fs' :
  Os.exists_ fs s = false ->
  Os.write fs s content = inr fs' ->
  fs ⊆ fs' /\ Os.stat fs' s = Some (TFile content).
Proof.
  intros Hne Hw.
  destruct (write_fresh_at _ _ _ _ Hne Hw) as (key & Hk & -> & Hst).
  split; [apply insert_subseteq, Hk|exact Hst].
Qed.

Lemma adds_dirs_refl fs : adds_dirs fs fs.
Proof. intros k nd Hk. auto. Qed.

Lemma adds_dirs_trans fs1 fs2 fs3 :
  adds_dirs fs1 fs2 -> adds_dirs fs2 fs3 -> adds_dirs fs1 fs3.
Proof.
  intros H12 H23 k nd Hk. destruct (H23 k nd Hk) as [H2|H2]; [|auto].
  apply H12, H2.
Qed.

Lemma mkdir_adds fs ps fs' : Os.mkdir fs ps = inr fs' -> adds_dirs fs fs'.
Proof.
  unfold Os.mkdir. destruct ps as [|p ps]; [discriminate|].
  destruct (Os.slot fs (p :: ps)) as [e|[cur name]]; [discriminate|].
  destruct (String.eqb name ".."); [discriminate|].
  destruct (fs !! (cur ++ [name])) eqn:E; [discriminate|].
  intros [= <-] k nd Hk.
  destruct (decide (k = cur ++ [name])) as [->|Hne].
  - rewrite lookup_insert_eq in Hk. injection Hk as <-. auto.
  - rewrite lookup_insert_ne in Hk by congruence. auto.
Qed.

Lemma path_mkdir_adds n : forall ps fs r fs',
  path_mkdir n ps fs = (r, fs') -> adds_dirs fs fs'.
Proof.
  induction n as [|n IH]; intros ps fs r fs'; cbn [path_mkdir].
  - destruct (Os.mkdir fs (take 0 ps)) as [e|fs1] eqn:E.
    + destruct e; try destruct (Os.parts_isdir fs (take 0 ps));
        intros [= _ <-]; apply adds_dirs_refl.
    + intros [= _ <-]. eapply mkdir_adds, E.
  - destruct (Os.mkdir fs (take (S n) ps)) as [e|fs1] eqn:E.
    + assert (Hother : forall r fs',
                (if Os.parts_isdir fs (take (S n) ps)
                 then (None, fs) else (Some e, fs)) = (r, fs') ->
                adds_dirs fs fs').
      { intros ? ?.
        destruct (Os.parts_isdir fs (take (S n) ps)); intros [= _ <-];
          apply adds_dirs_refl. }
      destruct e; try apply Hother.
      destruct (path_mkdir n ps fs) as [[e1|] fs1] eqn:E1.
      * intros [= _ <-]. eapply IH, E1.
      * pose proof (IH _ _ _ _ E1) as Hfirst.
        destruct (Os.mkdir fs1 (take (S n) ps)) as [e2|fs2] eqn:E2.
        -- destruct e2; try destruct (Os.parts_isdir fs1 (take (S n) ps));
             intros [= _ <-]; exact Hfirst.
        -- intros [= _ <-]. eapply adds_dirs_trans; [exact Hfirst|].
           eapply mkdir_adds, E2.
    + intros [= _ <-]. eapply mkdir_adds, E.
Qed.

End FileSystem.

(** ** What a call may do to the state *)

Section Steps.

Lemma evolves_refl st : evolves st st.
Proof. unfold evolves. auto. Qed.

Lemma evolves_trans st1 st2 st3 :
  evolves st1 st2 -> evolves st2 st3 -> evolves st1 st3.
Proof.
  intros (Hd1 & Hb1 & Hf1 & Hi1) (Hd2 & Hb2 & Hf2 & Hi2).
  repeat split.
  - etrans; eauto.
  - congruence.
  - etrans; eauto.
  - auto.
Qed.

Lemma evolves_print m st : evolves st (print m st).
Proof. unfold evolves. simpl. auto. Qed.

Lemma for_each_evolves {A} (body : A -> state -> outcome * state) l :
  (forall x st o st', x ∈ l -> body x st = (o, st') -> evolves st st') ->
  forall st o st', for_each body l st = (o, st') -> evolves st st'.
Proof.
  induction l as [|x l IH]; intros Hbody st o st'; simpl.
  - intros [= _ <-]. apply evolves_refl.
  - destruct (body x st) as [[|e] st1] eqn:E.
    + intros Hrest. eapply evolves_trans.
      * eapply Hbody; [left|exact E].
      * eapply IH; [|exact Hrest]. intros. eapply Hbody; [right|]; eauto.
    + intros [= _ <-]. eapply Hbody; [left|exact E].
Qed.

Lemma satisfied_mono destination db fs fs' h :
  fs ⊆ fs' -> satisfied destination db fs h -> satisfied destination db fs' h.
Proof. intros Hsub Hs f Hf. eapply exists_mono; eauto. Qed.

Lemma of_os_write_fresh fs s content st o st' :
  disk st = fs -> Os.exists_ fs s = false ->
  of_os (Os.write fs s content) st = (o, st') ->
  disk st ⊆ disk st' /\ DB st' = DB st /\ FOUND st' = FOUND st
  /\ (o = Normal \/ exists e, o = Raise (OSError e))
  /\ (o = Normal -> Os.exists_ (disk st') s = true).
Proof.
  intros Hfs Hne. destruct (Os.write fs s content) as [e|fs'] eqn:Ew; simpl.
  - intros [= <- <-]. repeat split; eauto. discriminate.
  - intros [= <- <-]. destruct (write_fresh _ _ _ _ Hne Ew) as [Hsub Hst].
    simpl. rewrite Hfs. repeat split; auto.
    intros _. apply exists_stat. eauto.
Qed.

(** A file and a buffer of the same bytes are written alike. *)
Lemma write_file_path_buffer name content destination h st :
  Os.read (disk st) name = inr content ->
  write_file (Path name) destination h st
  = write_file (Buffer content) destination h st.
Proof.
  intros Hread. unfold write_file.
  destruct (DB st !! h) as [f|]; [|reflexivity]. cbn [disk set_disk].
  destruct (mkdir_parents _ (disk st)) as [[e|] fs] eqn:Em; [reflexivity|].
  destruct (Os.exists_ fs _); [reflexivity|].
  unfold Os.copyfile.
  apply read_stat in Hread.
  apply (stat_mono _ _ _ _ (mkdir_parents_grows _ _ _ _ Em)) in Hread.
  apply read_stat in Hread. rewrite Hread. reflexivity.
Qed.

Lemma found_add (found keys : gset bytes) (h : bytes) :
  h ∈ keys ->
  found ⊆ {[h]} ∪ found /\ (found ⊆ keys -> {[h]} ∪ found ⊆ keys).
Proof.
  intros Hh. split; [apply union_subseteq_r|].
  intros Hsub. apply union_least; [|exact Hsub].
  apply singleton_subseteq_l, Hh.
Qed.

Lemma write_file_buffer_spec buf destination h st o st' :
  write_file (Buffer buf) destination h st = (o, st') ->
  evolves st st'
  /\ (o = Normal \/ exists e, o = Raise (OSError e))
  /\ (o = Normal -> satisfied destination (DB st') (disk st') h)
  /\ (FOUND st' = FOUND st \/ (FOUND st' = {[h]} ∪ FOUND st /\ h ∈ dom (DB st)))
  /\ printed st' = printed st.
Proof.
  unfold write_file, satisfied, evolves.
  destruct (DB st !! h) as [f|] eqn:Edb.
  2: { intros [= <- <-]. split_and!; auto. intros _ f Hf. congruence. }
  assert (Hdom : h ∈ dom (DB st)) by (apply elem_of_dom; eauto).
  destruct (found_add (FOUND st) (dom (DB st)) h Hdom) as [Hgrow Hkeep].
  cbn [disk set_disk DB FOUND printed].
  destruct (mkdir_parents _ (disk st)) as [[e|] fs] eqn:Em;
    pose proof (mkdir_parents_grows _ _ _ _ Em) as Hg.
  { intros [= <- <-]. cbn [disk set_disk DB FOUND printed].
    split_and!; eauto. discriminate. }
  destruct (Os.exists_ fs (Py.join destination f)) eqn:Eex.
  { intros [= <- <-]. cbn [disk set_disk DB FOUND printed].
    split_and!; eauto. intros _ f' Hf'. congruence. }
  intros Hw. pose proof Hw as Hw'.
  eapply of_os_write_fresh in Hw; [|reflexivity|exact Eex].
  cbn [disk set_disk DB FOUND printed] in Hw.
  destruct Hw as (Hsub & Hdb & Hfound & Ho & Hex).
  rewrite Hfound, Hdb.
  split_and!; eauto.
  - etrans; eauto.
  - intros Hn f' Hf'. assert (f' = f) as -> by congruence. auto.
  - destruct (Os.write fs (Py.join destination f) buf);
      simpl in Hw'; injection Hw' as _ <-; reflexivity.
Qed.

(** Nothing to do for a hash whose target exists: no error, no write. *)
Lemma write_file_quiet src destination h st :
  satisfied destination (DB st) (disk st) h ->
  exists found,
    write_file src destination h st
    = (Normal, State (DB st) found (disk st) (printed st)).
Proof.
  intros Hsat. unfold write_file.
  destruct (DB st !! h) as [f|] eqn:Edb.
  - specialize (Hsat f Edb). cbn [disk set_disk DB FOUND printed].
    apply exists_stat in Hsat as Hst. destruct Hst as [t Ht].
    rewrite (mkdir_parents_existing _ _ _ Ht), Hsat. eauto.
  - exists (FOUND st). destruct st; reflexivity.
Qed.

End Steps.

(** ** The traversal *)

Section Traversal.

Context `{Harch : Libarchive, Hscan : Scandir}.

Lemma read_file_buffer_evolves buf destination st o st' :
  read_file_buffer buf destination st = (o, st') -> evolves st st'.
Proof. intros Hw. apply write_file_buffer_spec in Hw. tauto. Qed.

Lemma read_file_buffer_uncaught buf other destination st o st' :
  read_file_buffer buf destination st = (o, st') ->
  or_read_file other destination (o, st') = (o, st').
Proof.
  intros Hw. apply write_file_buffer_spec in Hw as (_ & [->|[e ->]] & _);
    reflexivity.
Qed.

Lemma or_read_file_evolves buf destination st r o st' :
  evolves st (snd r) ->
  or_read_file buf destination r = (o, st') -> evolves st st'.
Proof.
  destruct r as [[|e] st1]; simpl; intros H1.
  - intros [= _ <-]. exact H1.
  - destruct (caught e).
    + intros Hw. eapply evolves_trans; [exact H1|].
      eapply read_file_buffer_evolves, Hw.
    + intros [= _ <-]. exact H1.
Qed.

Lemma read_archive_evolves depth : forall src destination st o st',
  read_archive depth src destination st = (o, st') -> evolves st st'.
Proof.
  induction depth as [|depth IH]; intros src destination st o st'; simpl.
  - intros [= _ <-]. apply evolves_refl.
  - destruct (reader_input src st) as [content|].
    2: { intros [= _ <-]. apply evolves_refl. }
    destruct (entries content) as [es complete].
    destruct (for_each _ es st) as [o1 st1] eqn:Eloop.
    assert (Hloop : evolves st st1).
    { eapply for_each_evolves; [|exact Eloop].
      intros buf st2 o2 st2' _ Hbody.
      eapply or_read_file_evolves; [|exact Hbody].
      destruct (read_archive depth (Buffer buf) destination st2) eqn:E.
      eapply IH, E. }
    destruct o1; [destruct complete|]; intros [= _ <-]; exact Hloop.
Qed.

Lemma hash_file_read fs name content :
  Os.read fs name = inr content -> hash_file fs name = inr (hash_mem content).
Proof.
  intros Hr. unfold hash_file, hash_open, hash_mem. rewrite Hr.
  rewrite hash_loop_update. reflexivity.
Qed.

Lemma write_file_evolves src destination h st o st' :
  (forall name, src = Path name -> Os.isfile (disk st) name = true) ->
  write_file src destination h st = (o, st') -> evolves st st'.
Proof.
  destruct src as [buf|name]; intros Hsrc Hw.
  - apply write_file_buffer_spec in Hw. tauto.
  - specialize (Hsrc name eq_refl). apply isfile_stat in Hsrc as [c Hc].
    apply read_stat in Hc. rewrite (write_file_path_buffer _ _ _ _ _ Hc) in Hw.
    apply write_file_buffer_spec in Hw. tauto.
Qed.

Lemma read_file_evolves depth src destination st o st' :
  read_file depth src destination st = (o, st') -> evolves st st'.
Proof.
  destruct src as [buf|name]; simpl.
  - apply read_file_buffer_evolves.
  - destruct (Os.isfile (disk st) name) eqn:Efile.
    2: { intros [= _ <-]. apply evolves_print. }
    destruct (read_archive depth (Path name) destination st)
      as [[|e] st1] eqn:Ea.
    + intros [= _ <-]. eapply read_archive_evolves, Ea.
    + pose proof (read_archive_evolves _ _ _ _ _ _ Ea) as H1.
      destruct (caught e); [|intros [= _ <-]; exact H1].
      destruct (hash_file (disk st1) name) as [e'|h] eqn:Eh.
      * intros [= _ <-]. exact H1.
      * intros Hw. eapply evolves_trans; [exact H1|].
        eapply write_file_evolves; [|exact Hw].
        intros ? [= <-]. apply isfile_stat.
        apply isfile_stat in Efile as [c Hc]. exists c.
        eapply stat_mono; [apply H1|exact Hc].
Qed.

Lemma read_dir_evolves depth : forall dir destination st o st',
  read_dir depth dir destination st = (o, st') -> evolves st st'.
Proof.
  induction depth as [|depth IH]; intros dir destination st o st';
    cbn [read_dir].
  - intros [= _ <-]. apply evolves_refl.
  - apply for_each_evolves. intros name st1 o1 st1' _.
    destruct (Os.isdir (disk st1) name); [apply IH|].
    destruct (Os.isfile (disk st1) name); [apply read_file_evolves|].
    intros [= _ <-]. apply evolves_refl.
Qed.

Lemma read_sources_evolves depth sources destination st o st' :
  read_sources depth sources destination st = (o, st') -> evolves st st'.
Proof.
  apply for_each_evolves. intros name st1 o1 st1' _.
  destruct (Os.isdir (disk st1) name); [apply read_dir_evolves|].
  destruct (Os.isfile (disk st1) name); [apply read_file_evolves|].
  intros [= _ <-]. apply evolves_refl.
Qed.

Lemma report_state st o st' :
  report st = (o, st') ->
  DB st' = DB st /\ FOUND st' = FOUND st /\ disk st' = disk st.
Proof.
  unfold report. cbn [DB print]. destruct (size (DB st) =? 0)%nat;
    intros [= _ <-]; auto.
Qed.

Lemma for_each_singleton {A} (body : A -> state -> outcome * state) x st :
  for_each body [x] st = body x st.
Proof. simpl. destruct (body x st) as [[|e] st']; reflexivity. Qed.

Lemma read_archive_leaf depth src destination st content :
  reader_input src st = Some content ->
  entries content = ([], false) ->
  read_archive (S depth) src destination st = (Raise ArchiveError, st).
Proof. intros Hin He. simpl. rewrite Hin, He. reflexivity. Qed.

(** The archive around a leaf does what [read_file] does on the leaf. *)
Lemma read_archive_nested n : forall leaf wrapped depth src destination st,
  entries leaf = ([], false) ->
  nested (S n) leaf wrapped ->
  reader_input src st = Some wrapped ->
  (S n < depth)%nat ->
  read_archive depth src destination st
  = read_file_buffer leaf destination st.
Proof.
  induction n as [|n IH];
    intros leaf wrapped depth src destination st Hleaf Hn Hin Hd;
    destruct Hn as (inner & He & Hn);
    (destruct depth as [|depth]; [lia|]);
    cbn [read_archive]; rewrite Hin, He, for_each_singleton.
  - simpl in Hn. subst inner.
    destruct depth as [|depth]; [lia|].
    rewrite (read_archive_leaf depth (Buffer leaf) destination st leaf
               eq_refl Hleaf).
    cbn [or_read_file caught].
    destruct (read_file_buffer leaf destination st) as [o st'] eqn:Ew.
    apply write_file_buffer_spec in Ew as (_ & [->|[e ->]] & _); reflexivity.
  - rewrite (IH leaf inner depth (Buffer inner) destination st Hleaf Hn eq_refl)
      by lia.
    destruct (read_file_buffer leaf destination st) as [o st'] eqn:Ew.
    rewrite (read_file_buffer_uncaught _ inner _ _ _ _ Ew).
    apply write_file_buffer_spec in Ew as (_ & [->|[e ->]] & _); reflexivity.
Qed.

Lemma read_file_leaf depth name leaf destination st :
  Os.stat (disk st) name = Some (TFile leaf) ->
  entries leaf = ([], false) ->
  read_file (S depth) (Path name) destination st
  = read_file_buffer leaf destination st.
Proof.
  intros Hst Hleaf. cbn [read_file].
  assert (Hfile : Os.isfile (disk st) name = true) by (apply isfile_stat; eauto).
  apply read_stat in Hst as Hread. rewrite Hfile.
  rewrite (read_archive_leaf _ _ _ _ leaf); [|simpl; rewrite Hread|]; auto.
  cbn [caught]. rewrite (hash_file_read _ _ _ Hread).
  apply write_file_path_buffer, Hread.
Qed.

End Traversal.

(** ** The run as a whole *)

Section Run.

Context `{Harch : Libarchive, Hscan : Scandir}.

Lemma write_file_found src destination h st o st' :
  write_file src destination h st = (o, st') ->
  DB st' = DB st
  /\ (FOUND st' = FOUND st
      \/ (FOUND st' = {[h]} ∪ FOUND st /\ h ∈ dom (DB st))).
Proof.
  unfold write_file. destruct (DB st !! h) as [f|] eqn:Edb.
  - assert (Hdom : h ∈ dom (DB st)) by (apply elem_of_dom; eauto).
    cbn [disk set_disk DB FOUND printed].
    destruct (mkdir_parents _ (disk st)) as [[e|] fs].
    + intros [= _ <-]. simpl. auto.
    + destruct (Os.exists_ fs _); [intros [= _ <-]; simpl; auto|].
      destruct src as [buf|name]; unfold of_os.
      * destruct (Os.write fs _ buf); intros [= _ <-]; simpl; auto.
      * destruct (Os.copyfile fs name _); intros [= _ <-]; simpl; auto.
  - intros [= _ <-]. auto.
Qed.

Lemma pair_of_fst {A B} (p : A * B) (a : A) : fst p = a -> p = (a, snd p).
Proof. intros <-. apply surjective_pairing. Qed.

Lemma load_lines_dom l : forall db0 db,
  load_lines l db0 = (Normal, db) -> dom db0 ⊆ dom db.
Proof.
  induction l as [|line rest IH]; intros db0 db; simpl.
  - intros [= <-]. reflexivity.
  - destruct (parse_line line) as [e|[k f]]; [discriminate|].
    intros Hl. apply IH in Hl. rewrite dom_insert in Hl.
    intros x Hx. apply Hl. apply elem_of_union. auto.
Qed.

Lemma load_smdb_empty lines db :
  load_smdb lines = (Normal, db) -> (db = ∅ <-> lines = []).
Proof.
  unfold load_smdb. intros Hl. split.
  - intros ->. destruct lines as [|x lines]; [reflexivity|exfalso].
    pose proof (sort_reverse_perm sort_key (x :: lines)) as Hp.
    destruct (Py.sort_reverse sort_key (x :: lines)) as [|y l] eqn:E.
    { apply Permutation_nil_l in Hp. discriminate. }
    simpl in Hl. destruct (parse_line y) as [e|[k f]]; [discriminate|].
    apply load_lines_dom in Hl. rewrite dom_insert, dom_empty in Hl.
    assert (Hk : k ∈ (∅ : gset bytes)).
    { apply Hl. apply elem_of_union. left. apply elem_of_singleton.
      reflexivity. }
    apply not_elem_of_empty in Hk. exact Hk.
  - intros ->. simpl in Hl. congruence.
Qed.

(** [main] in the three ways it can go on after the destination exists. *)
Lemma main_unfold depth lines destination sources st :
  Os.isdir (disk st) destination = true ->
  main depth lines destination sources st =
  let st0 := State (snd (load_smdb lines)) (FOUND st) (disk st) (printed st) in
  match fst (load_smdb lines) with
  | Raise (ValueError e) => (Normal, print (ErrSmdb e) st0)
  | Raise e => (Raise e, st0)
  | Normal =>
      match read_sources depth sources destination st0 with
      | (Normal, st') => report st'
      | r => r
      end
  end.
Proof.
  intros Hdir. unfold main. rewrite Hdir. simpl.
  destruct (load_smdb lines) as [o db]. reflexivity.
Qed.

End Run.

(** ** Every visible file is reached *)

Section Cover.

Context `{Harch : Libarchive, Hscan : Scandir, Hlaws : !ScandirLaws}.

Lemma for_each_elem {A} (body : A -> state -> outcome * state) l x :
  (forall y st o st', body y st = (o, st') -> evolves st st') ->
  x ∈ l ->
  forall st st', for_each body l st = (Normal, st') ->
  exists st1 st2,
    evolves st st1 /\ body x st1 = (Normal, st2) /\ evolves st2 st'.
Proof.
  intros Hbody. induction l as [|y l IH]; intros Hin st st' Hrun.
  - inversion Hin.
  - simpl in Hrun. destruct (body y st) as [[|e] sty] eqn:Ey; [|discriminate].
    apply elem_of_cons in Hin as [->|Hin].
    + exists st, sty. split_and!; [apply evolves_refl|exact Ey|].
      eapply for_each_evolves; [|exact Hrun]. intros; eapply Hbody; eauto.
    + destruct (IH Hin _ _ Hrun) as (st1 & st2 & H1 & H2 & H3).
      exists st1, st2. split_and!; auto.
      eapply evolves_trans; [eapply Hbody, Ey|exact H1].
Qed.

Lemma has_magic_app a b :
  Py.has_magic (a ++ b)%string = Py.has_magic a || Py.has_magic b.
Proof.
  induction a as [|c a IH]; [reflexivity|].
  rewrite app_cons_str. cbn [Py.has_magic]. rewrite IH.
  rewrite !orb_assoc. reflexivity.
Qed.

Lemma has_magic_join dir name :
  Py.has_magic dir = false -> Py.has_magic name = false ->
  Py.has_magic (Py.join dir name) = false.
Proof.
  intros Hd Hn. unfold Py.join.
  destruct (Py.startswith_sep name); [exact Hn|].
  destruct (_ || _); rewrite has_magic_app, Hd; [exact Hn|].
  cbn [Py.has_magic]. rewrite Hn. reflexivity.
Qed.

Lemma join_not_empty dir name :
  Os.trivial name = false -> String.eqb (Py.join dir name) "" = false.
Proof.
  intros Hn. unfold Py.join.
  assert (Hne : name <> ""%string) by (intros ->; discriminate).
  destruct (Py.startswith_sep name).
  - apply String.eqb_neq, Hne.
  - destruct (_ || _); destruct dir; simpl;
      try reflexivity; apply String.eqb_neq, Hne.
Qed.

(** The walk to a child of a directory. *)
Lemma lookup_join fs dir k name :
  entry_name name ->
  Os.lookup fs dir = inr k ->
  Os.node_at fs k = Some TDir ->
  Os.lookup fs (Py.join dir name) = inr (k ++ [name]).
Proof.
  intros Hname Hdir Hk. unfold Os.lookup in *.
  destruct (String.eqb_spec dir ""); [discriminate|].
  destruct Hname as (Ht & Hdd & Hsep).
  rewrite (join_not_empty _ _ Ht).
  destruct (fields_join dir name) as (pre & -> & Hpre);
    [repeat split; assumption|assumption|].
  rewrite namei_app.
  assert (Hw : Os.namei fs [] pre = inr k).
  { destruct Hpre as [<-|Hpre]; [exact Hdir|].
    rewrite Hpre, namei_app in Hdir.
    destruct (Os.namei fs [] pre) as [e|k0]; [discriminate|].
    simpl in Hdir. destruct (Os.node_at fs k0) as [[| |]|]; try discriminate.
    exact Hdir. }
  rewrite Hw. simpl. rewrite Hk, (step_entry _ _ Ht Hdd). reflexivity.
Qed.

Lemma lookup_namei fs dir k :
  Os.lookup fs dir = inr k -> Os.namei fs [] (Os.fields dir) = inr k.
Proof. unfold Os.lookup. destruct (String.eqb dir ""); [discriminate|auto]. Qed.

Lemma glob_star_listing fs dir k :
  Py.has_magic dir = false ->
  Os.lookup fs dir = inr k ->
  Os.node_at fs k = Some TDir ->
  glob_star fs dir
  = map (Py.join dir) (filter (fun name => hidden name = false) (listdir fs k)).
Proof.
  intros Hm Hl Hk. unfold glob_star.
  rewrite Hm, (lookup_namei _ _ _ Hl), Hk. reflexivity.
Qed.

Lemma glob_star_child fs dir k name n :
  Py.has_magic dir = false ->
  Os.lookup fs dir = inr k ->
  Os.node_at fs k = Some TDir ->
  fs !! (k ++ [name]) = Some n ->
  hidden name = false ->
  Py.join dir name ∈ glob_star fs dir.
Proof.
  intros Hm Hl Hk Hn Hh. rewrite (glob_star_listing _ _ _ Hm Hl Hk).
  apply list_elem_of_fmap. exists name. split; [reflexivity|].
  apply list_elem_of_filter. split; [exact Hh|].
  apply listdir_elem. eauto.
Qed.

Lemma visit_evolves depth destination name st o st' :
  visit depth destination name st = (o, st') -> evolves st st'.
Proof.
  unfold visit. destruct (Os.isdir (disk st) name); [apply read_dir_evolves|].
  destruct (Os.isfile (disk st) name); [apply read_file_evolves|].
  intros [= _ <-]. apply evolves_refl.
Qed.

Lemma read_dir_visit depth dir destination st :
  read_dir (S depth) dir destination st
  = for_each (visit depth destination) (glob_star (disk st) dir) st.
Proof. reflexivity. Qed.

Lemma read_sources_visit depth sources destination st :
  read_sources depth sources destination st
  = for_each (visit depth destination) sources st.
Proof. reflexivity. Qed.

Section Reach.

Variable destination : string.

(** What is known of a file once [read_file] returned on it, and stays
    known while the state evolves. *)
Variable Post : bytes -> state -> Prop.

Hypothesis Post_file : forall depth name content st st',
  Os.stat (disk st) name = Some (TFile content) ->
  read_file depth (Path name) destination st = (Normal, st') ->
  Post content st'.

Hypothesis Post_evolves : forall content st st',
  Post content st -> evolves st st' -> Post content st'.

(** [read_dir] that returns has read every file below the directory that
    a chain of listed names leads to. *)
Lemma read_dir_reaches names : forall depth dir k st st' link content,
  read_dir depth dir destination st = (Normal, st') ->
  Py.has_magic dir = false ->
  Os.lookup (disk st) dir = inr k ->
  Forall listed_name names ->
  (forall i, (i < length names)%nat ->
     Os.node_at (disk st) (k ++ take i names) = Some TDir) ->
  names <> [] ->
  disk st !! (k ++ names) = Some (Node link (TFile content)) ->
  Post content st'.
Proof.
  induction names as [|name rest IH];
    intros depth dir k st st' link content Hrun Hm Hl Hnames Hdirs Hne Hfile;
    [congruence|].
  destruct depth as [|depth]; [discriminate|].
  rewrite read_dir_visit in Hrun.
  inversion Hnames as [|? ? (Hentry & Hhid & Hmag) Hrest]; subst.
  assert (Hk : Os.node_at (disk st) k = Some TDir).
  { specialize (Hdirs O ltac:(simpl; lia)). simpl in Hdirs.
    rewrite app_nil_r in Hdirs. exact Hdirs. }
  assert (Hchild : is_Some (disk st !! (k ++ [name]))).
  { destruct rest as [|r rest].
    - rewrite Hfile. eauto.
    - specialize (Hdirs 1%nat ltac:(simpl; lia)). simpl in Hdirs.
      rewrite node_at_snoc in Hdirs.
      destruct (disk st !! (k ++ [name])); [eauto|discriminate]. }
  destruct Hchild as [n Hn].
  pose proof (glob_star_child _ _ _ _ _ Hm Hl Hk Hn Hhid) as Hin.
  destruct (for_each_elem _ _ _ (visit_evolves depth destination) Hin _ _ Hrun)
    as (st1 & st2 & H1 & Hvisit & H2).
  eapply Post_evolves; [|exact H2].
  pose proof H1 as (Hsub & Hdb & _).
  assert (Hl1 : Os.lookup (disk st1) (Py.join dir name) = inr (k ++ [name])).
  { apply lookup_join; [exact Hentry| |].
    - eapply lookup_mono; eauto.
    - eapply node_at_mono; eauto. }
  unfold visit in Hvisit. unfold Os.isdir, Os.isfile, Os.stat in Hvisit.
  rewrite Hl1 in Hvisit.
  destruct rest as [|r rest].
  - assert (Hc : Os.node_at (disk st1) (k ++ [name]) = Some (TFile content)).
    { eapply node_at_mono; [exact Hsub|]. rewrite node_at_snoc, Hfile.
      reflexivity. }
    rewrite Hc in Hvisit. eapply Post_file; [|exact Hvisit].
    unfold Os.stat. rewrite Hl1. exact Hc.
  - assert (Hc : Os.node_at (disk st1) (k ++ [name]) = Some TDir).
    { eapply node_at_mono; [exact Hsub|].
      apply (Hdirs 1%nat). simpl. lia. }
    rewrite Hc in Hvisit.
    eapply (IH depth (Py.join dir name) (k ++ [name]) st1 st2 link content);
      auto.
    + apply has_magic_join; assumption.
    + intros i Hi. eapply node_at_mono; [exact Hsub|].
      rewrite <- app_assoc. apply (Hdirs (S i)). cbn [length] in *. lia.
    + rewrite <- app_assoc. eapply lookup_weaken; [exact Hfile|exact Hsub].
Qed.

End Reach.

Lemma read_archive_src depth src destination st content :
  reader_input src st = Some content ->
  read_archive depth src destination st
  = read_archive depth (Buffer content) destination st.
Proof. intros Hin. destruct depth; simpl; [|rewrite Hin]; reflexivity. Qed.

(** A reader that raises on these bytes never lets [read_archive] return. *)
Lemma read_archive_broken depth src destination st content o st' :
  reader_input src st = Some content ->
  snd (entries content) = false ->
  read_archive depth src destination st = (o, st') ->
  o <> Normal.
Proof.
  intros Hin Hbad. destruct depth as [|depth]; simpl.
  - intros [= <- _]. discriminate.
  - rewrite Hin. destruct (entries content) as [es complete].
    simpl in Hbad. subst complete.
    destruct (for_each _ es st) as [[|e] st1]; intros [= <- _]; discriminate.
Qed.

Lemma write_file_adds src destination h st o st' :
  write_file src destination h st = (o, st') ->
  h ∈ dom (DB st) -> h ∈ FOUND st'.
Proof.
  unfold write_file. intros Hw Hdom. apply elem_of_dom in Hdom as [f Hf].
  rewrite Hf in Hw. cbn [disk set_disk DB FOUND printed] in Hw.
  assert (Hin : h ∈ ({[h]} ∪ FOUND st : gset bytes)).
  { apply elem_of_union. left. apply elem_of_singleton. reflexivity. }
  destruct (mkdir_parents _ (disk st)) as [[e|] fs].
  - injection Hw as _ <-. exact Hin.
  - destruct (Os.exists_ fs _); [injection Hw as _ <-; exact Hin|].
    destruct src as [buf|name]; unfold of_os in Hw.
    + destruct (Os.write fs _ buf); injection Hw as _ <-; exact Hin.
    + destruct (Os.copyfile fs name _); injection Hw as _ <-; exact Hin.
Qed.

(** A file that is no well-formed archive is hashed and matched. *)
Lemma read_file_matches depth name content destination st st' :
  Os.stat (disk st) name = Some (TFile content) ->
  read_file depth (Path name) destination st = (Normal, st') ->
  snd (entries content) = false ->
  hash_mem content ∈ dom (DB st) ->
  hash_mem content ∈ FOUND st'
  /\ satisfied destination (DB st') (disk st') (hash_mem content).
Proof.
  intros Hst Hrun Hbad Hdom. cbn [read_file] in Hrun.
  assert (Hfile : Os.isfile (disk st) name = true) by (apply isfile_stat; eauto).
  rewrite Hfile in Hrun.
  destruct (read_archive depth (Path name) destination st) as [o st1] eqn:Ea.
  pose proof (read_archive_evolves _ _ _ _ _ _ Ea) as (Hsub & Hdb & _).
  apply read_stat in Hst as Hread.
  eapply read_archive_broken in Ea as Ho; [|simpl; rewrite Hread; reflexivity|exact Hbad].
  destruct o as [|e]; [congruence|].
  destruct (caught e); [|discriminate].
  assert (Hread1 : Os.read (disk st1) name = inr content).
  { apply read_stat. eapply stat_mono; [exact Hsub|]. apply read_stat, Hread. }
  rewrite (hash_file_read _ _ _ Hread1) in Hrun.
  rewrite (write_file_path_buffer _ _ _ _ _ Hread1) in Hrun.
  split.
  - eapply write_file_adds; [exact Hrun|]. rewrite Hdb. exact Hdom.
  - apply write_file_buffer_spec in Hrun as (_ & _ & Hsat & _). auto.
Qed.

End Cover.

(** ** A second pass over the same bytes *)

Section Replay.

Context `{Harch : Libarchive, Hscan : Scandir}.

Variable destination : string.

Lemma settled_mono db fs fs' content :
  fs ⊆ fs' -> settled destination db fs content -> settled destination db fs' content.
Proof.
  intros Hsub Hs depth st Hfs Hdb. apply Hs; [|exact Hdb]. etrans; eauto.
Qed.

Lemma read_blob_evolves depth content st o st' :
  read_blob destination depth content st = (o, st') -> evolves st st'.
Proof.
  unfold read_blob. intros Hb.
  destruct (read_archive depth (Buffer content) destination st)
    as [oa sta] eqn:Ea.
  eapply or_read_file_evolves; [|exact Hb]. simpl.
  eapply read_archive_evolves, Ea.
Qed.

Lemma read_archive_blobs depth content st :
  read_archive (S depth) (Buffer content) destination st =
  match for_each (read_blob destination depth) (fst (entries content)) st with
  | (Normal, st') =>
      if snd (entries content) then (Normal, st') else (Raise ArchiveError, st')
  | r => r
  end.
Proof. simpl. destruct (entries content). reflexivity. Qed.

Lemma read_blob_uncaught depth content st o st' :
  read_blob destination depth content st = (o, st') ->
  match o with Normal => True | Raise e => caught e = false end.
Proof.
  unfold read_blob.
  destruct (read_archive depth (Buffer content) destination st)
    as [[|e] sta]; simpl.
  - intros [= <- _]. exact I.
  - destruct (caught e) eqn:Ec.
    + intros Hw. apply write_file_buffer_spec in Hw as (_ & [->|[e' ->]] & _);
        [exact I|reflexivity].
    + intros [= <- _]. exact Ec.
Qed.

Lemma for_each_uncaught {A} (body : A -> state -> outcome * state) l :
  (forall x st o st', body x st = (o, st') ->
     match o with Normal => True | Raise e => caught e = false end) ->
  forall st o st', for_each body l st = (o, st') ->
  match o with Normal => True | Raise e => caught e = false end.
Proof.
  intros Hbody. induction l as [|x l IH]; intros st o st'; simpl.
  - intros [= <- _]. exact I.
  - destruct (body x st) as [[|e] st1] eqn:E; [apply IH|].
    intros [= <- _]. apply (Hbody _ _ _ _ E).
Qed.

(** The loop over the entries, a second time. *)
Lemma loop_again depth depth' es :
  (forall content st sta st2,
     read_blob destination depth content st = (Normal, sta) ->
     disk sta ⊆ disk st2 -> DB st2 = DB st ->
     exists o st2', read_blob destination depth' content st2 = (o, st2')
       /\ disk st2' = disk st2 /\ DB st2' = DB st2 /\ calm o) ->
  forall st st1 st2,
    for_each (read_blob destination depth) es st = (Normal, st1) ->
    disk st1 ⊆ disk st2 -> DB st2 = DB st ->
    exists o st2', for_each (read_blob destination depth') es st2 = (o, st2')
      /\ disk st2' = disk st2 /\ DB st2' = DB st2 /\ calm o.
Proof.
  intros Hblob. induction es as [|e es IH]; intros st st1 st2 Hrun Hsub Hdb.
  - exists Normal, st2. simpl. unfold calm. auto.
  - simpl in Hrun.
    destruct (read_blob destination depth e st) as [[|x] sta] eqn:Eb; [|discriminate].
    pose proof (for_each_evolves _ _
                  (fun y s o s' _ => read_blob_evolves depth y s o s')
                  _ _ _ Hrun) as (Hsub1 & Hdb1 & _).
    pose proof (read_blob_evolves _ _ _ _ _ Eb) as (_ & Hdba & _).
    destruct (Hblob e st sta st2 Eb) as (o & st2' & Hb2 & Hd2 & Hdb2 & Ho);
      [etrans; eauto|exact Hdb|].
    simpl. rewrite Hb2. destruct Ho as [->| ->].
    + destruct (IH sta st1 st2' Hrun) as (o' & st2'' & Hl & Hd' & Hdb' & Ho').
      * rewrite Hd2. exact Hsub.
      * congruence.
      * exists o', st2''. split_and!; auto; congruence.
    + exists (Raise RecursionError), st2'. unfold calm. auto.
Qed.

(** [read_archive] again on bytes that it passed once. *)
Lemma read_archive_again depth' : forall depth content st o st1 st2,
  read_archive depth (Buffer content) destination st = (o, st1) ->
  passes o ->
  disk st1 ⊆ disk st2 -> DB st2 = DB st ->
  exists o2 st2',
    read_archive depth' (Buffer content) destination st2 = (o2, st2')
    /\ disk st2' = disk st2 /\ DB st2' = DB st2
    /\ (o2 = o \/ o2 = Raise RecursionError).
Proof.
  induction depth' as [|depth' IH]; intros depth content st o st1 st2
    Hrun Hpass Hsub Hdb.
  - exists (Raise RecursionError), st2. simpl. auto.
  - destruct depth as [|depth].
    { simpl in Hrun. injection Hrun as <- _. simpl in Hpass. discriminate. }
    rewrite read_archive_blobs in Hrun. rewrite read_archive_blobs.
    destruct (for_each (read_blob destination depth) (entries content).1 st)
      as [o1 stl] eqn:El.
    assert (o1 = Normal) as ->.
    { pose proof (for_each_uncaught _ _ (read_blob_uncaught depth) _ _ _ El)
        as Hu.
      destruct o1 as [|e]; [reflexivity|].
      injection Hrun as <- _. simpl in Hpass. congruence. }
    assert (Hst1 : st1 = stl)
      by (destruct (entries content).2; congruence).
    subst stl.
    destruct (loop_again depth depth' (entries content).1) with
      (st := st) (st1 := st1) (st2 := st2)
      as (o2 & st2' & Hl2 & Hd2 & Hdb2 & Ho2); auto.
    { (* one entry again *)
      intros c s sa s2 Hb Hsa Hdbs. unfold read_blob in Hb |- *.
      destruct (read_archive depth (Buffer c) destination s)
        as [oe se] eqn:Ee.
      pose proof (read_archive_evolves _ _ _ _ _ _ Ee) as (_ & Hdbe & _).
      assert (Hpe : passes oe).
      { destruct oe as [|x]; [exact I|]. simpl in Hb |- *.
        destruct (caught x); [reflexivity|discriminate]. }
      assert (Hse : disk se ⊆ disk sa).
      { destruct oe as [|x]; simpl in Hb.
        - injection Hb as <-. reflexivity.
        - destruct (caught x); [|discriminate].
          apply read_file_buffer_evolves in Hb. apply Hb. }
      destruct (IH depth c s oe se s2 Ee Hpe) as (o' & s2' & Ha & Hd' & Hdb' & Ho');
        [etrans; eauto|exact Hdbs|].
      rewrite Ha. destruct Ho' as [->| ->].
      - destruct oe as [|x]; simpl in Hb |- *.
        + exists Normal, s2'. unfold calm. auto.
        + destruct (caught x); [|discriminate].
          apply write_file_buffer_spec in Hb
            as ((_ & Hdba & _) & _ & Hsat & _).
          specialize (Hsat eq_refl).
          destruct (write_file_quiet (Buffer c) destination (hash_mem c) s2')
            as [found Hq].
          { rewrite Hdb', Hdbs, <- Hdbe, <- Hdba, Hd'.
            eapply satisfied_mono; eauto. }
          unfold read_file_buffer. rewrite Hq.
          exists Normal, (State (DB s2') found (disk s2') (printed s2')).
          unfold calm. simpl. auto.
      - exists (Raise RecursionError), s2'. unfold calm. simpl. auto. }
    rewrite Hl2. destruct Ho2 as [->| ->].
    + destruct (entries content).2.
      * injection Hrun as <-. exists Normal, st2'. auto.
      * injection Hrun as <-. exists (Raise ArchiveError), st2'. auto.
    + exists (Raise RecursionError), st2'. auto.
Qed.

(** Bytes that [read_blob] returned on are settled destination from then on. *)
Lemma read_blob_settles depth content st st1 :
  read_blob destination depth content st = (Normal, st1) ->
  settled destination (DB st) (disk st1) content.
Proof.
  intros Hb depth' st2 Hsub Hdb. unfold read_blob in Hb |- *.
  destruct (read_archive depth (Buffer content) destination st)
    as [oe se] eqn:Ee.
  pose proof (read_archive_evolves _ _ _ _ _ _ Ee) as (_ & Hdbe & _).
  assert (Hpe : passes oe).
  { destruct oe as [|x]; [exact I|]. simpl in Hb |- *.
    destruct (caught x); [reflexivity|discriminate]. }
  assert (Hse : disk se ⊆ disk st1).
  { destruct oe as [|x]; simpl in Hb.
    - injection Hb as <-. reflexivity.
    - destruct (caught x); [|discriminate].
      apply read_file_buffer_evolves in Hb. apply Hb. }
  destruct (read_archive_again depth' depth content st oe se st2 Ee Hpe)
    as (o' & s2' & Ha & Hd' & Hdb' & Ho'); [etrans; eauto|exact Hdb|].
  rewrite Ha. destruct Ho' as [->| ->].
  - destruct oe as [|x]; simpl in Hb |- *.
    + exists Normal, s2'. unfold calm. split_and!; auto; congruence.
    + destruct (caught x); [|discriminate].
      apply write_file_buffer_spec in Hb as ((_ & Hdba & _) & _ & Hsat & _).
      specialize (Hsat eq_refl).
      destruct (write_file_quiet (Buffer content) destination
                  (hash_mem content) s2') as [found Hq].
      { rewrite Hdb', Hdb, <- Hdbe, <- Hdba, Hd'.
        eapply satisfied_mono; eauto. }
      unfold read_file_buffer. rewrite Hq.
      exists Normal, (State (DB s2') found (disk s2') (printed s2')).
      unfold calm. simpl. split_and!; auto; congruence.
  - exists (Raise RecursionError), s2'. unfold calm. simpl.
    split_and!; auto; congruence.
Qed.

(** A file on disk is read as its bytes are. *)
Lemma read_file_path_blob depth name content st :
  Os.stat (disk st) name = Some (TFile content) ->
  read_file depth (Path name) destination st = read_blob destination depth content st.
Proof.
  intros Hst. cbn [read_file]. unfold read_blob.
  assert (Hfile : Os.isfile (disk st) name = true) by (apply isfile_stat; eauto).
  apply read_stat in Hst as Hread. rewrite Hfile.
  rewrite (read_archive_src depth (Path name) destination st content)
    by (simpl; rewrite Hread; reflexivity).
  destruct (read_archive depth (Buffer content) destination st)
    as [[|e] st1] eqn:Ea; [reflexivity|]. simpl.
  destruct (caught e); [|reflexivity].
  pose proof (read_archive_evolves _ _ _ _ _ _ Ea) as (Hsub & _).
  assert (Hread1 : Os.read (disk st1) name = inr content).
  { apply read_stat. eapply stat_mono; [exact Hsub|]. apply read_stat, Hread. }
  rewrite (hash_file_read _ _ _ Hread1).
  apply write_file_path_buffer, Hread1.
Qed.

End Replay.

(** ** What the first run leaves for the second *)

Section Fresh.

Context `{Harch : Libarchive, Hscan : Scandir}.

Variable destination : string.

(** The file system at the start of the first run. *)
Variable fs0 : filesystem.

Lemma for_each_preserves {A} (body : A -> state -> outcome * state)
  (I : state -> Prop) l :
  (forall x st o st', body x st = (o, st') -> I st -> I st') ->
  forall st o st', for_each body l st = (o, st') -> I st -> I st'.
Proof.
  intros Hbody. induction l as [|x l IH]; intros st o st'; simpl.
  - intros [= _ <-]. auto.
  - destruct (body x st) as [[|e] st1] eqn:E.
    + intros Hrun Hi. eapply IH; [exact Hrun|]. eapply Hbody; eauto.
    + intros [= _ <-] Hi. eapply Hbody; eauto.
Qed.

Lemma write_file_new_nodes buf h st o st' :
  write_file (Buffer buf) destination h st = (o, st') ->
  forall k nd, disk st' !! k = Some nd ->
    disk st !! k = Some nd \/ resolved nd = TDir
    \/ (o = Normal /\ nd = Node false (TFile buf)).
Proof.
  unfold write_file. destruct (DB st !! h) as [f|].
  2: { intros [= _ <-] k nd Hk. auto. }
  cbn [disk set_disk DB FOUND printed].
  destruct (mkdir_parents _ (disk st)) as [r fs] eqn:Em.
  pose proof (path_mkdir_adds _ _ _ _ _ Em) as Hm.
  assert (Hdirs : forall k nd, fs !! k = Some nd ->
            disk st !! k = Some nd \/ resolved nd = TDir).
  { exact Hm. }
  destruct r as [e|].
  { intros [= _ <-] k nd Hk. simpl in Hk.
    destruct (Hdirs k nd Hk); auto. }
  destruct (Os.exists_ fs (Py.join destination f)) eqn:Eex.
  { intros [= _ <-] k nd Hk. simpl in Hk. destruct (Hdirs k nd Hk); auto. }
  destruct (Os.write fs (Py.join destination f) buf) as [e|fs'] eqn:Ew; simpl.
  { intros [= _ <-] k nd Hk. simpl in Hk. destruct (Hdirs k nd Hk); auto. }
  destruct (write_fresh_at _ _ _ _ Eex Ew) as (key & Hkey & -> & _).
  intros [= <- <-] k nd Hk. simpl in Hk.
  destruct (decide (k = key)) as [->|Hne].
  - rewrite lookup_insert_eq in Hk. injection Hk as <-. auto.
  - rewrite lookup_insert_ne in Hk by congruence.
    destruct (Hdirs k nd Hk); auto.
Qed.

Lemma read_blob_fresh depth :
  (forall content st o st',
     read_archive depth (Buffer content) destination st = (o, st') ->
     fresh_settled destination fs0 st -> fresh_settled destination fs0 st') ->
  forall content st o st',
    read_blob destination depth content st = (o, st') ->
    fresh_settled destination fs0 st -> fresh_settled destination fs0 st'.
Proof.
  intros Harchive content st o st' Hb Hfresh.
  pose proof Hb as Hb'. unfold read_blob in Hb.
  destruct (read_archive depth (Buffer content) destination st)
    as [oa sta] eqn:Ea.
  pose proof (Harchive _ _ _ _ Ea Hfresh) as Hfa.
  pose proof (read_archive_evolves _ _ _ _ _ _ Ea) as (_ & Hdba & _).
  destruct oa as [|e]; simpl in Hb; [injection Hb as _ <-; exact Hfa|].
  destruct (caught e); [|injection Hb as _ <-; exact Hfa].
  unfold read_file_buffer in Hb.
  pose proof (write_file_buffer_spec _ _ _ _ _ _ Hb)
    as ((Hsub & Hdb & _) & _).
  intros k nd c Hk Hc Hnew.
  destruct (write_file_new_nodes _ _ _ _ _ Hb k nd Hk)
    as [Hold|[Hdir|[-> ->]]].
  - rewrite Hdb. eapply settled_mono; [exact Hsub|]. eapply Hfa; eauto.
  - congruence.
  - simpl in Hc. injection Hc as <-.
    rewrite Hdb, Hdba. eapply read_blob_settles. exact Hb'.
Qed.

Lemma read_archive_fresh depth : forall content st o st',
  read_archive depth (Buffer content) destination st = (o, st') ->
  fresh_settled destination fs0 st -> fresh_settled destination fs0 st'.
Proof.
  induction depth as [|depth IH]; intros content st o st'.
  - simpl. intros [= _ <-]. auto.
  - rewrite read_archive_blobs.
    destruct (for_each (read_blob destination depth) (entries content).1 st)
      as [o1 st1] eqn:El.
    intros Hrun Hfresh.
    assert (Hf1 : fresh_settled destination fs0 st1).
    { eapply (for_each_preserves _ (fresh_settled destination fs0)); [|exact El|exact Hfresh].
      intros. eapply (read_blob_fresh depth IH); eauto. }
    destruct o1; [destruct (entries content).2|];
      injection Hrun as _ <-; exact Hf1.
Qed.

Lemma visit_fresh depth : forall name st o st',
  visit depth destination name st = (o, st') ->
  fresh_settled destination fs0 st -> fresh_settled destination fs0 st'.
Proof.
  induction depth as [|depth IH]; intros name st o st'; unfold visit.
  - destruct (Os.isdir (disk st) name).
    { simpl. intros [= _ <-]. auto. }
    destruct (Os.isfile (disk st) name) eqn:Ef; [|intros [= _ <-]; auto].
    apply isfile_stat in Ef as [c Hc].
    rewrite (read_file_path_blob _ _ _ _ _ Hc).
    apply (read_blob_fresh 0), read_archive_fresh.
  - destruct (Os.isdir (disk st) name).
    { rewrite read_dir_visit. apply for_each_preserves. intros x. apply IH. }
    destruct (Os.isfile (disk st) name) eqn:Ef; [|intros [= _ <-]; auto].
    apply isfile_stat in Ef as [c Hc].
    rewrite (read_file_path_blob _ _ _ _ _ Hc).
    apply (read_blob_fresh (S depth)), read_archive_fresh.
Qed.

Lemma read_sources_fresh depth sources st o st' :
  read_sources depth sources destination st = (o, st') ->
  fresh_settled destination fs0 st -> fresh_settled destination fs0 st'.
Proof.
  rewrite read_sources_visit. apply for_each_preserves.
  intros x. apply visit_fresh.
Qed.

End Fresh.

(** ** The second run *)

Section Again.

Context `{Harch : Libarchive, Hscan : Scandir, Hlaws : !ScandirLaws}.

Variable destination : string.
Variable db : index.

Lemma for_each_still {A} (body : A -> state -> outcome * state)
  (I : state -> Prop) l :
  (forall x, x ∈ l -> forall st, I st ->
     exists o st', body x st = (o, st') /\ I st') ->
  forall st, I st -> exists o st', for_each body l st = (o, st') /\ I st'.
Proof.
  induction l as [|x l IH]; intros Hbody st Hi; simpl.
  - eauto.
  - destruct (Hbody x ltac:(left) st Hi) as (o & st1 & -> & H1).
    destruct o as [|e]; [|eauto].
    apply IH; [|exact H1]. intros y Hy. apply Hbody. right. exact Hy.
Qed.

Lemma name_ok_spec c :
  name_ok c = true -> entry_name c /\ Py.has_magic c = false.
Proof.
  unfold name_ok, entry_name.
  rewrite !andb_true_iff, !negb_true_iff. tauto.
Qed.

Lemma names_ok_child fs k name nd :
  names_ok fs -> fs !! (k ++ [name]) = Some nd ->
  entry_name name /\ Py.has_magic name = false.
Proof.
  intros Hok Hk. specialize (Hok _ _ Hk). simpl in Hok.
  rewrite forallb_app in Hok. apply andb_true_iff in Hok as [_ Hn].
  simpl in Hn. rewrite andb_true_r in Hn. apply name_ok_spec, Hn.
Qed.

Lemma stat_child fs dir k name :
  entry_name name -> Os.lookup fs dir = inr k ->
  Os.node_at fs k = Some TDir ->
  Os.stat fs (Py.join dir name) = resolved <$> fs !! (k ++ [name]).
Proof.
  intros Hn Hl Hk. unfold Os.stat.
  rewrite (lookup_join _ _ _ _ Hn Hl Hk). apply node_at_snoc.
Qed.

(** With everything below settled, a visit changes no file. *)
Lemma visit_still fs depth : forall name st,
  disk st = fs -> DB st = db ->
  names_ok fs ->
  Py.has_magic name = false ->
  source_settled destination db fs name ->
  exists o st', visit depth destination name st = (o, st')
    /\ disk st' = fs /\ DB st' = db.
Proof.
  induction depth as [|depth IH]; intros name st Hfs Hdb Hok Hm [Hdir Hfile];
    unfold visit; rewrite Hfs.
  - destruct (Os.isdir fs name); [simpl; eauto|].
    destruct (Os.isfile fs name) eqn:Ef; [|eauto].
    apply isfile_stat in Ef as [c Hc].
    rewrite (read_file_path_blob destination 0 name c st)
      by (rewrite Hfs; exact Hc).
    destruct (Hfile c Hc O st) as (o & st' & Hb & Hd & Hdb' & _);
      [rewrite Hfs; reflexivity|exact Hdb|].
    exists o, st'. split_and!; [exact Hb|congruence|exact Hdb'].
  - destruct (Os.isdir fs name) eqn:Ed.
    + apply isdir_stat in Ed. unfold Os.stat in Ed.
      destruct (Os.lookup fs name) as [e|k] eqn:El; [discriminate|].
      rewrite read_dir_visit, Hfs.
      rewrite (glob_star_listing _ _ _ Hm El Ed).
      pose proof (for_each_still (visit depth destination)
                    (fun s => disk s = fs /\ DB s = db)) as Hloop.
      destruct (Hloop (map (Py.join name)
                         (filter (fun n => hidden n = false) (listdir fs k))))
        with (st := st) as (o & st' & Hrun & Hd' & Hdb'); [|auto|eauto].
      intros p Hp s [Hs Hsdb].
      apply list_elem_of_fmap in Hp as (n & -> & Hn).
      apply list_elem_of_filter in Hn as [Hhid Hn].
      apply listdir_elem in Hn as [nd Hnd].
      destruct (names_ok_child _ _ _ _ Hok Hnd) as [Hentry Hmag].
      pose proof (lookup_join _ _ _ _ Hentry El Ed) as Hlc.
      destruct (IH (Py.join name n) s Hs Hsdb Hok) as (o & s' & Hv & Hd' & Hdb').
      * apply has_magic_join; assumption.
      * split.
        -- intros k' Hk' Hdk'. rewrite Hlc in Hk'. injection Hk' as <-.
           intros names nd' c Hne Hh Hf Hc Hdirs.
           eapply (Hdir k eq_refl Ed (n :: names) nd' c).
           ++ discriminate.
           ++ constructor; assumption.
           ++ rewrite <- Hf, <- app_assoc. reflexivity.
           ++ exact Hc.
           ++ intros [|i] Hi.
              ** simpl. rewrite app_nil_r. exact Ed.
              ** specialize (Hdirs i ltac:(cbn [length] in Hi; lia)).
                 rewrite <- app_assoc in Hdirs. exact Hdirs.
        -- intros c Hc. rewrite (stat_child _ _ _ _ Hentry El Ed), Hnd in Hc.
           simpl in Hc. injection Hc as Hc.
           eapply (Hdir k eq_refl Ed [n] nd c); auto.
           ++ intros [|i] Hi; [|simpl in Hi; lia].
              simpl. rewrite app_nil_r. exact Ed.
      * eauto.
    + destruct (Os.isfile fs name) eqn:Ef; [|eauto].
      apply isfile_stat in Ef as [c Hc].
      rewrite (read_file_path_blob destination (S depth) name c st)
        by (rewrite Hfs; exact Hc).
      destruct (Hfile c Hc (S depth) st) as (o & st' & Hb & Hd & Hdb' & _);
        [rewrite Hfs; reflexivity|exact Hdb|].
      exists o, st'. split_and!; [exact Hb|congruence|exact Hdb'].
Qed.

Lemma read_sources_still fs depth sources st :
  disk st = fs -> DB st = db ->
  names_ok fs ->
  Forall (fun s => Py.has_magic s = false) sources ->
  (forall s, s ∈ sources -> source_settled destination db fs s) ->
  exists o st', read_sources depth sources destination st = (o, st')
    /\ disk st' = fs /\ DB st' = db.
Proof.
  intros Hfs Hdb Hok Hm Hsrc. rewrite read_sources_visit.
  apply (for_each_still (visit depth destination)
           (fun s => disk s = fs /\ DB s = db)); [|auto].
  intros s Hs s0 [H0 Hdb0]. apply visit_still; auto.
  rewrite Forall_forall in Hm. apply Hm, Hs.
Qed.

End Again.

(** ** From the first run to the second *)

Section Twice.

Context `{Harch : Libarchive, Hscan : Scandir, Hlaws : !ScandirLaws}.

Variable destination : string.

(** In a file system where every node lies in a directory, the path to a
    node goes through directories. *)
Lemma parent_closed_prefix fs k names : forall nd,
  parent_closed fs ->
  fs !! (k ++ names) = Some nd ->
  names <> [] ->
  forall i, (i < length names)%nat ->
    Os.node_at fs (k ++ take i names) = Some TDir.
Proof.
  induction names as [|x names IH] using rev_ind; intros nd Hpc Hk Hne i Hi;
    [congruence|].
  assert (Hparent : Os.node_at fs (k ++ names) = Some TDir).
  { specialize (Hpc _ _ Hk). simpl in Hpc.
    rewrite app_assoc, removelast_last in Hpc. unfold dir_at in Hpc.
    destruct (Os.node_at fs (k ++ names)) as [[| |]|]; congruence. }
  rewrite length_app in Hi. simpl in Hi.
  destruct (decide (i = length names)) as [->|Hlt].
  - rewrite take_app_length. exact Hparent.
  - rewrite take_app_le by lia.
    destruct names as [|y names]; [simpl in *; lia|].
    assert (Hnode : exists nd', fs !! (k ++ y :: names) = Some nd').
    { unfold Os.node_at in Hparent.
      destruct (k ++ y :: names) eqn:E; [destruct k; discriminate|].
      destruct (fs !! (s :: l)); [eauto|discriminate]. }
    destruct Hnode as [nd' Hnd'].
    apply (IH nd' Hpc Hnd'); [discriminate|lia].
Qed.

Lemma names_ok_listed fs k names nd :
  names_ok fs -> fs !! (k ++ names) = Some nd ->
  Forall (fun n => hidden n = false) names ->
  Forall listed_name names.
Proof.
  intros Hok Hk Hh. specialize (Hok _ _ Hk). simpl in Hok.
  rewrite forallb_app in Hok. apply andb_true_iff in Hok as [_ Hn].
  rewrite forallb_forall in Hn. rewrite Forall_forall in *.
  intros n Hin. destruct (name_ok_spec n) as [He Hm].
  { apply Hn, list_elem_of_In, Hin. }
  repeat split; auto; apply He.
Qed.

Lemma read_file_settles depth name content st st' :
  Os.stat (disk st) name = Some (TFile content) ->
  read_file depth (Path name) destination st = (Normal, st') ->
  settled destination (DB st') (disk st') content.
Proof.
  intros Hst Hrun.
  pose proof (read_file_evolves _ _ _ _ _ _ Hrun) as (_ & Hdb & _).
  rewrite (read_file_path_blob _ _ _ _ _ Hst) in Hrun.
  rewrite Hdb. eapply read_blob_settles, Hrun.
Qed.

Lemma settled_evolves content st st' :
  settled destination (DB st) (disk st) content -> evolves st st' ->
  settled destination (DB st') (disk st') content.
Proof.
  intros Hs (Hsub & Hdb & _). rewrite Hdb. eapply settled_mono; eauto.
Qed.

(** After a first traversal that returned, every source is settled. *)
Lemma first_run_settles fs0 depth sources st0 st1 s :
  read_sources depth sources destination st0 = (Normal, st1) ->
  disk st0 = fs0 ->
  parent_closed fs0 ->
  names_ok (disk st1) ->
  s ∈ sources ->
  Py.has_magic s = false ->
  (Os.exists_ (disk st1) s = true -> Os.exists_ fs0 s = true) ->
  source_settled destination (DB st0) (disk st1) s.
Proof.
  intros Hrun Hfs0 Hpc Hok Hin Hm Hstable.
  pose proof (read_sources_evolves _ _ _ _ _ _ Hrun) as (Hsub01 & Hdb01 & _).
  assert (Hfresh : fresh_settled destination fs0 st1).
  { eapply read_sources_fresh; [exact Hrun|].
    intros k nd c Hk _ Hnone. rewrite Hfs0 in Hk. congruence. }
  rewrite read_sources_visit in Hrun.
  destruct (for_each_elem _ _ _ (visit_evolves depth destination) Hin _ _ Hrun)
    as (sta & stb & Ha & Hvisit & Hb).
  pose proof Ha as (Hsuba & Hdba & _). pose proof Hb as (Hsubb & Hdbb & _).
  pose proof (visit_evolves _ _ _ _ _ _ Hvisit) as (Hsubv & Hdbv & _).
  assert (Hold : forall t, Os.stat (disk st1) s = Some t ->
                   Os.stat fs0 s = Some t).
  { intros t Ht. assert (He : Os.exists_ fs0 s = true).
    { apply Hstable, exists_stat. eauto. }
    apply exists_stat in He as [t0 Ht0]. rewrite <- Hfs0 in Ht0.
    pose proof (stat_mono _ _ _ _ Hsub01 Ht0). rewrite <- Hfs0. congruence. }
  split.
  - intros k Hl Hk names nd c Hne Hh Hf Hc Hdirs.
    assert (Hst1 : Os.stat (disk st1) s = Some TDir)
      by (unfold Os.stat; rewrite Hl; exact Hk).
    apply Hold in Hst1 as Hst0. rewrite <- Hfs0 in Hst0.
    destruct (fs0 !! (k ++ names)) as [nd0|] eqn:E0.
    2: { rewrite <- Hdb01. eapply Hfresh; eauto. }
    rewrite <- Hfs0 in E0.
    assert (nd0 = nd) as ->.
    { pose proof (lookup_weaken _ _ _ _ E0 Hsub01). congruence. }
    assert (Hl0 : Os.lookup (disk st0) s = inr k).
    { unfold Os.stat in Hst0.
      destruct (Os.lookup (disk st0) s) as [e|k0] eqn:El0; [discriminate|].
      pose proof (lookup_mono _ _ _ _ Hsub01 El0). congruence. }
    assert (Hsta : Os.stat (disk sta) s = Some TDir)
      by (eapply stat_mono; eauto).
    unfold visit in Hvisit. apply isdir_stat in Hsta as Hda.
    rewrite Hda in Hvisit.
    assert (Hpost : settled destination (DB stb) (disk stb) c).
    { destruct nd as [link t]. simpl in Hc. subst t.
      refine (read_dir_reaches destination
                (fun c s => settled destination (DB s) (disk s) c)
                _ _ names depth s k sta stb link c Hvisit Hm _ _ _ Hne _).
      - intros. eapply read_file_settles; eauto.
      - intros. eapply settled_evolves; eauto.
      - eapply lookup_mono; eauto.
      - eapply names_ok_listed; eauto.
      - intros i Hi. eapply node_at_mono; [exact Hsuba|].
        rewrite Hfs0 in *. eapply parent_closed_prefix; eauto.
      - eapply lookup_weaken; eauto. }
    rewrite <- Hdb01. exact (settled_evolves _ _ _ Hpost Hb).
  - intros c Hc. apply Hold in Hc as Hc0. rewrite <- Hfs0 in Hc0.
    assert (Hca : Os.stat (disk sta) s = Some (TFile c))
      by (eapply stat_mono; eauto).
    unfold visit in Hvisit. unfold Os.isdir in Hvisit. rewrite Hca in Hvisit.
    assert (Hfa : Os.isfile (disk sta) s = true) by (apply isfile_stat; eauto).
    rewrite Hfa in Hvisit.
    pose proof (read_file_settles _ _ _ _ _ Hca Hvisit) as Hpost.
    rewrite <- Hdb01. exact (settled_evolves _ _ _ Hpost Hb).
Qed.

Lemma for_each_outcome {A} (body : A -> state -> outcome * state)
  (P : outcome -> Prop) l :
  P Normal ->
  (forall x st o st', body x st = (o, st') -> P o) ->
  forall st o st', for_each body l st = (o, st') -> P o.
Proof.
  intros Hn Hbody. induction l as [|x l IH]; intros st o st'; simpl.
  - intros [= <- _]. exact Hn.
  - destruct (body x st) as [[|e] st1] eqn:E; [apply IH|].
    intros [= <- _]. eapply Hbody, E.
Qed.

Lemma read_blob_outcome depth :
  (forall src st o st',
     read_archive depth src destination st = (o, st') -> from_traversal o) ->
  forall content st o st',
    read_blob destination depth content st = (o, st') -> from_traversal o.
Proof.
  intros Harchive content st o st'. unfold read_blob.
  destruct (read_archive depth (Buffer content) destination st)
    as [[|e] st1] eqn:Ea; simpl.
  - intros [= <- _]. exact I.
  - apply Harchive in Ea. destruct (caught e).
    + intros Hw. apply write_file_buffer_spec in Hw as (_ & [->|[e' ->]] & _);
        exact I.
    + intros [= <- _]. exact Ea.
Qed.

Lemma read_archive_outcome depth : forall src st o st',
  read_archive depth src destination st = (o, st') -> from_traversal o.
Proof.
  induction depth as [|depth IH]; intros src st o st'; simpl.
  - intros [= <- _]. exact I.
  - destruct (reader_input src st) as [content|]; [|intros [= <- _]; exact I].
    destruct (entries content) as [es complete].
    destruct (for_each _ es st) as [o1 st1] eqn:El.
    assert (Ho1 : from_traversal o1).
    { eapply (for_each_outcome _ from_traversal); [exact I| |exact El].
      intros buf s o2 s2. apply (read_blob_outcome depth IH). }
    destruct o1; [destruct complete|]; intros [= <- _]; auto; exact I.
Qed.

Lemma write_file_outcome src h st o st' :
  write_file src destination h st = (o, st') -> from_traversal o.
Proof.
  unfold write_file. destruct (DB st !! h); [|intros [= <- _]; exact I].
  cbn [disk set_disk].
  destruct (mkdir_parents _ (disk st)) as [[e|] fs];
    [intros [= <- _]; exact I|].
  destruct (Os.exists_ fs _); [intros [= <- _]; exact I|].
  destruct src as [buf|name]; unfold of_os.
  - destruct (Os.write fs _ buf); intros [= <- _]; exact I.
  - destruct (Os.copyfile fs name _); intros [= <- _]; exact I.
Qed.

Lemma read_file_outcome depth name st o st' :
  read_file depth (Path name) destination st = (o, st') -> from_traversal o.
Proof.
  cbn [read_file].
  destruct (Os.isfile (disk st) name); [|intros [= <- _]; exact I].
  destruct (read_archive depth (Path name) destination st)
    as [[|e] st1] eqn:Ea; [intros [= <- _]; exact I|].
  apply read_archive_outcome in Ea.
  destruct (caught e) eqn:Ec; [|intros [= <- _]; exact Ea].
  destruct (hash_file (disk st1) name) as [e'|h]; [intros [= <- _]; exact I|].
  apply write_file_outcome.
Qed.

Lemma visit_outcome depth : forall name st o st',
  visit depth destination name st = (o, st') -> from_traversal o.
Proof.
  induction depth as [|depth IH]; intros name st o st'; unfold visit.
  - destruct (Os.isdir (disk st) name); [simpl; intros [= <- _]; exact I|].
    destruct (Os.isfile (disk st) name); [apply read_file_outcome|].
    intros [= <- _]. exact I.
  - destruct (Os.isdir (disk st) name).
    + rewrite read_dir_visit. apply for_each_outcome; [exact I|].
      intros x. apply IH.
    + destruct (Os.isfile (disk st) name); [apply read_file_outcome|].
      intros [= <- _]. exact I.
Qed.

Lemma read_sources_outcome depth sources st o st' :
  read_sources depth sources destination st = (o, st') -> from_traversal o.
Proof.
  rewrite read_sources_visit. apply for_each_outcome; [exact I|].
  intros x. apply visit_outcome.
Qed.

End Twice.

(** ** Invariants of the traversal *)

Section Invariant.

Context `{Harch : Libarchive, Hscan : Scandir}.

Variable destination : string.
Variable I : state -> Prop.
Variable G : outcome -> Prop.

Hypothesis G_passes : forall o, passes o -> G o.
Hypothesis I_write : forall buf st o st',
  write_file (Buffer buf) destination (hash_mem buf) st = (o, st') ->
  I st -> G o -> I st'.

Lemma for_each_inv {A} (body : A -> state -> outcome * state) l :
  (forall x st o st', body x st = (o, st') -> I st -> G o -> I st') ->
  forall st o st', for_each body l st = (o, st') -> I st -> G o -> I st'.
Proof.
  intros Hb. induction l as [|x l IH]; intros st o st'; cbn [for_each].
  - by intros [= _ <-].
  - destruct (body x st) as [[|e] st1] eqn:Ex.
    + intros Hl HI. apply (IH _ _ _ Hl).
      apply (Hb _ _ _ _ Ex HI). by apply G_passes.
    + intros [= <- <-]. by apply (Hb _ _ _ _ Ex).
Qed.

Lemma read_blob_inv depth :
  (forall content st o st',
     read_archive depth (Buffer content) destination st = (o, st') ->
     I st -> G o -> I st') ->
  forall content st o st',
    read_blob destination depth content st = (o, st') -> I st -> G o -> I st'.
Proof.
  intros IH content st o st'. unfold read_blob, or_read_file.
  destruct (read_archive depth (Buffer content) destination st)
    as [[|e] st1] eqn:E.
  - intros [= <- <-]. by apply (IH _ _ _ _ E).
  - destruct (caught e) eqn:He.
    + intros Hw HI. apply (I_write _ _ _ _ Hw).
      apply (IH _ _ _ _ E HI). by apply G_passes.
    + intros [= <- <-]. by apply (IH _ _ _ _ E).
Qed.

Lemma read_archive_inv depth : forall content st o st',
  read_archive depth (Buffer content) destination st = (o, st') ->
  I st -> G o -> I st'.
Proof.
  induction depth as [|depth IH]; intros content st o st';
    [by intros [= _ <-]|].
  rewrite read_archive_blobs.
  destruct (for_each _ _ st) as [[|e] st1] eqn:E.
  - intros Hr HI _.
    assert (I st1).
    { apply (for_each_inv _ _ (read_blob_inv depth IH) _ _ _ E HI).
      by apply G_passes. }
    by destruct (snd (entries content)); injection Hr as _ <-.
  - intros [= <- <-].
    apply (for_each_inv _ _ (read_blob_inv depth IH) _ _ _ E).
Qed.

Lemma read_file_inv depth name st o st' :
  Os.isfile (disk st) name = true ->
  read_file depth (Path name) destination st = (o, st') ->
  I st -> G o -> I st'.
Proof.
  intros Hf. apply isfile_stat in Hf as [content Hs].
  rewrite (read_file_path_blob _ _ _ _ _ Hs).
  apply read_blob_inv. apply read_archive_inv.
Qed.

Lemma visit_inv depth : forall name st o st',
  visit depth destination name st = (o, st') -> I st -> G o -> I st'.
Proof.
  induction depth as [|depth IH]; intros name st o st'; unfold visit.
  - destruct (Os.isdir _ _); [by intros [= _ <-]|].
    destruct (Os.isfile _ _) eqn:Hf; [|by intros [= _ <-]].
    by apply read_file_inv.
  - destruct (Os.isdir _ _).
    + rewrite read_dir_visit. apply for_each_inv. exact IH.
    + destruct (Os.isfile _ _) eqn:Hf; [|by intros [= _ <-]].
      by apply read_file_inv.
Qed.

Lemma read_sources_inv depth sources st o st' :
  read_sources depth sources destination st = (o, st') ->
  I st -> G o -> I st'.
Proof.
  rewrite read_sources_visit. apply for_each_inv. apply visit_inv.
Qed.

End Invariant.

Section Quiet.

Context `{Harch : Libarchive, Hscan : Scandir}.

Variable destination : string.

Lemma write_file_printed src h st o st' :
  write_file src destination h st = (o, st') -> printed st' = printed st.
Proof.
  unfold write_file. destruct (DB st !! h) as [filename|]; [|by intros [= _ <-]].
  cbn [disk].
  destruct (mkdir_parents _ _) as [[e|] fs]; [by intros [= _ <-]|].
  cbn [disk set_disk].
  destruct (Os.exists_ fs _); [by intros [= _ <-]|].
  destruct src as [buf|name]; unfold of_os;
    [destruct (Os.write _ _ _)|destruct (Os.copyfile _ _ _)];
    by intros [= _ <-].
Qed.

Lemma read_sources_printed depth sources st o st' :
  read_sources depth sources destination st = (o, st') -> printed st' = printed st.
Proof.
  intros H.
  apply (read_sources_inv destination (fun s => printed s = printed st)
           (fun _ => True)) in H; auto.
  intros buf s o1 s1 Hw Hs _. apply write_file_printed in Hw. congruence.
Qed.

End Quiet.

(** ** The exceptions that get out *)

Section Escapes.

Context `{Harch : Libarchive, Hscan : Scandir}.

Variable destination : string.

Lemma write_file_raises src h st o st' :
  write_file src destination h st = (o, st') ->
  o = Normal \/ exists e, o = Raise (OSError e).
Proof.
  unfold write_file. destruct (DB st !! h) as [filename|]; [|intros [= <- _]; by left].
  cbn [disk].
  destruct (mkdir_parents _ _) as [[e|] fs]; [intros [= <- _]; right; by eexists|].
  cbn [disk set_disk].
  destruct (Os.exists_ fs _); [intros [= <- _]; by left|].
  destruct src as [buf|name]; unfold of_os;
    [destruct (Os.write _ _ _)|destruct (Os.copyfile _ _ _)];
    intros [= <- _]; (by left) || (right; by eexists).
Qed.

Lemma read_file_uncaught depth name st o st' :
  read_file depth (Path name) destination st = (o, st') ->
  match o with Normal => True | Raise e => caught e = false end.
Proof.
  cbn [read_file]. destruct (Os.isfile _ _); [|by intros [= <- _]].
  destruct (read_archive depth (Path name) destination st) as [[|e] st1];
    [by intros [= <- _]|].
  destruct (caught e) eqn:He; [|intros [= <- _]; exact He].
  destruct (hash_file _ _); [by intros [= <- _]|].
  intros Hw. apply write_file_raises in Hw as [->|[e' ->]]; done.
Qed.

Lemma visit_uncaught depth : forall name st o st',
  visit depth destination name st = (o, st') ->
  match o with Normal => True | Raise e => caught e = false end.
Proof.
  induction depth as [|depth IH]; intros name st o st'; unfold visit.
  - destruct (Os.isdir _ _); [by intros [= <- _]|].
    destruct (Os.isfile _ _); [|by intros [= <- _]].
    apply read_file_uncaught.
  - destruct (Os.isdir _ _).
    + rewrite read_dir_visit. apply for_each_uncaught. exact IH.
    + destruct (Os.isfile _ _); [|by intros [= <- _]].
      apply read_file_uncaught.
Qed.

Lemma read_sources_raises depth sources st e st' :
  read_sources depth sources destination st = (Raise e, st') ->
  e = RecursionError \/ exists oe, e = OSError oe.
Proof.
  intros H. pose proof (read_sources_outcome destination _ _ _ _ _ H) as Ht.
  rewrite read_sources_visit in H.
  apply (for_each_uncaught _ _ (visit_uncaught depth)) in H.
  destruct e as [why| |oe| |]; cbn in *; try done;
    [right; by exists oe|by left].
Qed.

End Escapes.

(** ** The ways a run can go *)

Section Output.

Context `{Harch : Libarchive, Hscan : Scandir}.

Lemma run_cases depth lines destination sources fs :
  let r := run depth lines destination sources fs in
  (Os.isdir fs destination = false
   /\ r = (Normal, print (ErrNoDestination destination) (State ∅ ∅ fs [])))
  \/ (exists why db,
        load_smdb lines = (Raise (ValueError why), db)
        /\ r = (Normal, print (ErrSmdb why) (State db ∅ fs [])))
  \/ (exists db o st',
        Os.isdir fs destination = true
        /\ load_smdb lines = (Normal, db)
        /\ read_sources depth sources destination (State db ∅ fs []) = (o, st')
        /\ r = match o with Normal => report st' | _ => (o, st') end).
Proof.
  unfold run, main. cbn [disk FOUND printed].
  destruct (Os.isdir fs destination) eqn:Hd; cbn [negb]; [|left; by split].
  right. destruct (load_smdb lines) as [loaded db] eqn:Hl.
  destruct (load_lines_outcome _ _ _ _ Hl) as [->|[why ->]].
  - right. destruct (read_sources _ _ _ _) as [o st'] eqn:Hr.
    exists db, o, st'. by destruct o.
  - left. by exists why, db.
Qed.

End Output.

(** ** Sources that are passed over *)

Section Skipping.

Context `{Harch : Libarchive, Hscan : Scandir}.

Lemma for_each_app {A} (body : A -> state -> outcome * state) l1 l2 st :
  for_each body (l1 ++ l2) st =
  match for_each body l1 st with
  | (Normal, st') => for_each body l2 st'
  | r => r
  end.
Proof.
  revert st. induction l1 as [|x l1 IH]; intros st; cbn [for_each app]; [done|].
  destruct (body x st) as [[|e] st1]; [apply IH|done].
Qed.

Lemma absent_before fs fs' s :
  fs ⊆ fs' ->
  Os.isdir fs' s = false -> Os.isfile fs' s = false ->
  Os.isdir fs s = false /\ Os.isfile fs s = false.
Proof.
  intros Hsub Hd Hf. unfold Os.isdir, Os.isfile in *.
  destruct (Os.stat fs s) as [t|] eqn:E; [|done].
  rewrite (stat_mono _ _ _ _ Hsub E) in Hd, Hf. by destruct t.
Qed.

Lemma read_sources_skip depth destination before after s st o st' :
  read_sources depth (before ++ after) destination st = (o, st') ->
  Os.isdir (disk st') s = false -> Os.isfile (disk st') s = false ->
  read_sources depth (before ++ s :: after) destination st = (o, st').
Proof.
  rewrite !read_sources_visit, !for_each_app.
  destruct (for_each _ before st) as [[|e] st1] eqn:E1; [|done].
  intros E2 Hd Hf. cbn [for_each].
  pose proof (for_each_evolves _ _
    (fun x st o st' _ H => visit_evolves depth destination x st o st' H)
    _ _ _ E2) as (Hsub & _).
  destruct (absent_before _ _ _ Hsub Hd Hf) as [Hd1 Hf1].
  unfold visit at 1. by rewrite Hd1, Hf1.
Qed.

End Skipping.

(** ** What is created *)

Section Listed.

Context `{Harch : Libarchive, Hscan : Scandir}.

Lemma write_fresh_key fs s content fs' :
  Os.exists_ fs s = false ->
  Os.write fs s content = inr fs' ->
  exists key, fs !! key = None
    /\ fs' = <[key := Node false (TFile content)]> fs
    /\ Os.lookup fs' s = inr key.
Proof.
  unfold Os.exists_, Os.stat, Os.lookup, Os.write.
  destruct (String.eqb s ""); [discriminate|].
  destruct (fields_removelast s) as (name & _ & Hf). rewrite Hf.
  rewrite namei_snoc.
  destruct (Os.slot fs (removelast (Os.fields s) ++ [name]))
    as [e|[cur name']] eqn:Es; [discriminate|].
  assert (name' = name) as ->.
  { rewrite slot_snoc in Es.
    destruct (Os.namei fs [] (removelast (Os.fields s))) as [?|k0];
      [discriminate|].
    destruct (Os.node_at fs k0) as [[| |]|]; congruence. }
  destruct (Os.trivial name) eqn:Ht; [discriminate|].
  destruct (String.eqb name "..") eqn:Edd; [discriminate|]. simpl.
  rewrite (step_entry _ _ Ht Edd), node_at_snoc.
  destruct (fs !! (cur ++ [name])) as [n|] eqn:E; [discriminate|].
  intros _ [= <-]. exists (cur ++ [name]). split_and!; [exact E|reflexivity|].
  assert (Hsub : fs ⊆ <[cur ++ [name] := Node false (TFile content)]> fs)
    by apply insert_subseteq, E.
  rewrite namei_snoc, (slot_mono _ _ _ _ Hsub Es).
  by rewrite (step_entry _ _ Ht Edd).
Qed.

Lemma write_file_listed destination fs0 buf st o st' :
  write_file (Buffer buf) destination (hash_mem buf) st = (o, st') ->
  fresh_listed destination fs0 st -> fresh_listed destination fs0 st'.
Proof.
  intros Hw HI.
  pose proof (write_file_buffer_spec _ _ _ _ _ _ Hw) as ((Hsub & Hdb & _) & _).
  assert (Hold : forall k nd, disk st !! k = Some nd -> fs0 !! k = None ->
            resolved nd = TDir
            \/ exists content filename,
                 nd = Node false (TFile content)
                 /\ DB st' !! hash_mem content = Some filename
                 /\ Os.lookup (disk st') (Py.join destination filename) = inr k).
  { intros k nd Hk H0. destruct (HI k nd Hk H0) as [?|(c & f & -> & Hf & Hl)];
      [by left|right].
    exists c, f. rewrite Hdb. split_and!; [done|done|].
    by apply (lookup_mono _ _ _ _ Hsub). }
  revert Hw. unfold write_file.
  destruct (DB st !! hash_mem buf) as [f|] eqn:Ef.
  2: { intros [= _ <-]. exact HI. }
  cbn [disk set_disk DB FOUND printed].
  destruct (mkdir_parents _ (disk st)) as [r fs] eqn:Em.
  pose proof (path_mkdir_adds _ _ _ _ _ Em) as Hm.
  assert (Hdirs : disk st' = fs -> fresh_listed destination fs0 st').
  { intros Hd k nd Hk H0. rewrite Hd in Hk.
    destruct (Hm k nd Hk) as [Hk'|?]; [|by left].
    by apply Hold. }
  destruct r as [e|]; [intros [= _ <-]; by apply Hdirs|].
  destruct (Os.exists_ fs (Py.join destination f)) eqn:Eex;
    [intros [= _ <-]; by apply Hdirs|].
  destruct (Os.write fs (Py.join destination f) buf) as [e|fs'] eqn:Ew;
    cbn [of_os]; [intros [= _ <-]; by apply Hdirs|].
  clear Hdirs.
  destruct (write_fresh_key _ _ _ _ Eex Ew) as (key & Hkey & -> & Hl).
  intros [= _ <-] k nd Hk H0. cbn [disk set_disk DB] in *.
  destruct (decide (k = key)) as [->|Hne].
  - rewrite lookup_insert_eq in Hk. injection Hk as <-. right.
    by exists buf, f.
  - rewrite lookup_insert_ne in Hk by congruence.
    destruct (Hm k nd Hk) as [Hk'|?]; [|by left].
    by apply Hold.
Qed.

Lemma read_sources_listed destination fs0 depth sources st o st' :
  read_sources depth sources destination st = (o, st') ->
  fresh_listed destination fs0 st -> fresh_listed destination fs0 st'.
Proof.
  intros H HI.
  apply (read_sources_inv destination (fresh_listed destination fs0)
           (fun _ => True)) in H; auto.
  intros buf s o1 s1 Hw Hs _. by apply (write_file_listed _ _ _ _ _ _ Hw).
Qed.

End Listed.

(** ** What is found *)

Section Present.

Context `{Harch : Libarchive, Hscan : Scandir}.

Lemma write_file_present destination buf h st o st' :
  write_file (Buffer buf) destination h st = (o, st') ->
  found_present destination st -> passes o -> found_present destination st'.
Proof.
  intros Hw HI Ho.
  destruct (write_file_buffer_spec _ _ _ _ _ _ Hw)
    as ((Hsub & Hdb & _) & Hcases & Hsat & Hfound & _).
  assert (o = Normal) as ->.
  { destruct Hcases as [->|[e ->]]; [done|]. cbn in Ho. discriminate. }
  intros h' Hin.
  assert (Hold : h' ∈ FOUND st -> satisfied destination (DB st') (disk st') h').
  { intros Hin'. rewrite Hdb. by apply (satisfied_mono _ _ _ _ _ Hsub), HI. }
  destruct Hfound as [Hf|[Hf _]]; rewrite Hf in Hin; [by apply Hold|].
  apply elem_of_union in Hin as [Hin|Hin]; [|by apply Hold].
  apply elem_of_singleton in Hin as ->. by apply Hsat.
Qed.

Lemma read_sources_present destination depth sources st o st' :
  read_sources depth sources destination st = (o, st') ->
  found_present destination st -> passes o -> found_present destination st'.
Proof.
  apply (read_sources_inv destination (found_present destination) passes);
    [done|].
  intros buf s o1 s1. apply write_file_present.
Qed.

Lemma write_file_idle src destination h st o st' :
  write_file src destination h st = (o, st') ->
  size (FOUND st') = 0%nat -> st' = st.
Proof.
  unfold write_file. destruct (DB st !! h) as [filename|]; [|by intros [= _ <-]].
  intros Hw Hz. apply size_empty_iff in Hz.
  assert (h ∈ FOUND st'); [|set_solver].
  revert Hw. cbn [disk].
  destruct (mkdir_parents _ _) as [[e|] fs];
    [intros [= _ <-]; cbn; set_solver|].
  cbn [disk set_disk].
  destruct (Os.exists_ fs _); [intros [= _ <-]; cbn; set_solver|].
  destruct src as [buf|name]; unfold of_os;
    [destruct (Os.write _ _ _)|destruct (Os.copyfile _ _ _)];
    intros [= _ <-]; cbn; set_solver.
Qed.

Lemma read_sources_idle destination depth sources st o st' :
  read_sources depth sources destination st = (o, st') ->
  size (FOUND st') = 0%nat -> disk st' = disk st.
Proof.
  intros H Hz.
  apply (read_sources_inv destination
           (fun s => size (FOUND s) = 0%nat -> disk s = disk st)
           (fun _ => True)) in H; auto.
  intros buf s o1 s1 Hw Hs _ Hz1.
  apply (write_file_idle _ _ _ _ _ _ Hw) in Hz1 as Heq. subst s1. auto.
Qed.

End Present.

(** ** The length of a digest *)

Section DigestLength.

Import Sha256.

Lemma chain_absorb o x :
  length (chain o) = 8%nat -> length (chain (absorb o x)) = 8%nat.
Proof.
  intros H. unfold absorb. by destruct (_ =? _)%nat.
Qed.

Lemma chain_update data : forall o,
  length (chain o) = 8%nat -> length (chain (update o data)) = 8%nat.
Proof.
  unfold update. induction data as [|x data IH]; intros o H; cbn [fold_left];
    [done|]. by apply IH, chain_absorb.
Qed.

Lemma length_digest o : length (chain o) = 8%nat -> length (digest o) = 32%nat.
Proof.
  intros H. unfold digest.
  pose proof (chain_update (padding (total o)) o H) as H8.
  destruct (chain (update o (padding (total o))))
    as [|a [|b [|c [|d [|e [|f [|g [|h [|]]]]]]]]]; try discriminate.
  reflexivity.
Qed.

Lemma length_hash_mem buf : length (hash_mem buf) = 32%nat.
Proof. unfold hash_mem. apply length_digest, chain_update. reflexivity. Qed.

Lemma length_hash_file fs name h :
  hash_file fs name = inr h -> length h = 32%nat.
Proof.
  intros H. destruct (Os.read fs name) as [e|content] eqn:E.
  - unfold hash_file in H. rewrite E in H. discriminate.
  - rewrite (hash_file_read _ _ _ E) in H. injection H as <-.
    apply length_hash_mem.
Qed.

End DigestLength.

(** ** The first field of a record *)

Section HashField.

Local Open Scope nat_scope.

Lemma hex_digit_not_space d hi :
  Py.hex_digit d = Some hi -> Py.c_isspace d = false.
Proof.
  destruct d as [[] [] [] [] [] [] [] []]; vm_compute; congruence.
Qed.

Lemma fromhex_length n : forall s key,
  String.length s <= n ->
  Py.fromhex s = Some key ->
  2 * length key <= String.length s
  /\ (existsb Py.c_isspace (list_ascii_of_string s) = true ->
      2 * length key < String.length s).
Proof.
  induction n as [|n IH]; intros s key Hn.
  - destruct s; [|cbn in Hn; lia]. cbn. intros [= <-]. cbn. split; [lia|done].
  - destruct s as [|c rest]; [cbn; intros [= <-]; cbn; split; [lia|done]|].
    cbn [Py.fromhex String.length list_ascii_of_string existsb] in *.
    destruct (Py.c_isspace c) eqn:Hc.
    + intros H. destruct (IH rest key ltac:(lia) H) as [Hle _].
      split; [lia|intros _; lia].
    + destruct (Py.hex_digit c) as [hi|]; [|done].
      destruct rest as [|d rest']; [done|].
      destruct (Py.hex_digit d) as [lo|] eqn:Hd; [|done].
      destruct (Py.fromhex rest') as [key'|] eqn:Hk; [|done].
      cbn. intros [= <-].
      cbn [String.length list_ascii_of_string existsb length] in *.
      destruct (IH rest' key' ltac:(lia) Hk) as [Hle Hlt].
      rewrite (hex_digit_not_space _ _ Hd). cbn [orb].
      split; [lia|]. intros Hs. specialize (Hlt Hs). lia.
Qed.

Lemma parse_line_field line key filename :
  parse_line line = inr (key, filename) ->
  String.length (Example.hash_field line) = 64
  /\ Py.fromhex (Example.hash_field line) = Some key.
Proof.
  unfold parse_line, Example.hash_field.
  destruct (Py.split tab 4 (Py.strip line))
    as [|f1 [|f2 [|f3 [|f4 [|f5 [|]]]]]]; try done.
  cbn [hd]. destruct (String.length f1 =? 64) eqn:E; [|done].
  cbn [negb]. destruct (Py.fromhex f1) as [k|]; [|done].
  intros [= <- _]. by apply Nat.eqb_eq in E.
Qed.

Lemma spaced_key_short line key filename :
  parse_line line = inr (key, filename) ->
  length key <= 32
  /\ (existsb Py.c_isspace (list_ascii_of_string (Example.hash_field line))
      = true -> length key < 32).
Proof.
  intros H. destruct (parse_line_field _ _ _ H) as [Hl Hf].
  destruct (fromhex_length _ _ _ (Nat.le_refl _) Hf) as [Hle Hlt].
  split; [lia|]. intros Hs. specialize (Hlt Hs). lia.
Qed.

End HashField.

(** ** The hashes in [FOUND] *)

Section FoundLength.

Context `{Harch : Libarchive, Hscan : Scandir}.

Lemma read_sources_found_length destination depth sources st o st' :
  read_sources depth sources destination st = (o, st') ->
  (forall h, h ∈ FOUND st -> length h = 32%nat) ->
  forall h, h ∈ FOUND st' -> length h = 32%nat.
Proof.
  intros H HI.
  refine (read_sources_inv destination
            (fun s => forall h, h ∈ FOUND s -> length h = 32%nat)
            (fun _ => True) (fun _ _ => Logic.I) _ _ _ _ _ _ H HI Logic.I).
  intros buf s o1 s1 Hw Hs _ h Hin.
  destruct (write_file_found _ _ _ _ _ _ Hw) as (_ & [Hf|[Hf _]]);
    rewrite Hf in Hin; [by apply Hs|].
  apply elem_of_union in Hin as [Hin|Hin]; [|by apply Hs].
  apply elem_of_singleton in Hin as ->. apply length_hash_mem.
Qed.

Lemma load_lines_key l : forall db0 db line k f,
  load_lines l db0 = (Normal, db) ->
  line ∈ l -> parse_line line = inr (k, f) -> k ∈ dom db.
Proof.
  induction l as [|x l IH]; intros db0 db line k f Hl Hin Hp.
  - by apply elem_of_nil in Hin.
  - cbn [load_lines] in Hl.
    destruct (parse_line x) as [e|[k' f']] eqn:Ex; [done|].
    apply elem_of_cons in Hin as [->|Hin].
    + rewrite Hp in Ex. injection Ex as <- <-.
      apply (load_lines_dom _ _ _ Hl). apply elem_of_dom.
      rewrite lookup_insert_eq. by eexists.
    + by apply (IH _ _ _ _ _ Hl Hin Hp).
Qed.

Lemma load_smdb_key lines db line k f :
  load_smdb lines = (Normal, db) ->
  line ∈ lines -> parse_line line = inr (k, f) -> k ∈ dom db.
Proof.
  unfold load_smdb. intros Hl Hin.
  apply (load_lines_key _ _ _ _ _ _ Hl).
  by rewrite (sort_reverse_perm sort_key lines).
Qed.

Lemma run_state depth lines destination sources fs :
  Os.isdir fs destination = true ->
  fst (load_smdb lines) = Normal ->
  exists o st',
    read_sources depth sources destination
      (State (snd (load_smdb lines)) ∅ fs []) = (o, st')
    /\ DB (snd (run depth lines destination sources fs)) = snd (load_smdb lines)
    /\ FOUND (snd (run depth lines destination sources fs)) = FOUND st'
    /\ disk (snd (run depth lines destination sources fs)) = disk st'.
Proof.
  intros Hd Hl. unfold run.
  rewrite (main_unfold depth lines destination sources (State ∅ ∅ fs []) Hd), Hl.
  cbn [FOUND disk printed].
  destruct (read_sources _ _ _ _) as [o st'] eqn:Hr. exists o, st'.
  split; [done|].
  pose proof (read_sources_evolves _ _ _ _ _ _ Hr) as (_ & Hdb & _).
  cbn in Hdb. destruct o; [|by rewrite <- Hdb].
  destruct (report st') as [o2 st2] eqn:Er.
  apply report_state in Er as (H1 & H2 & H3). cbn [snd]. by rewrite H1, Hdb.
Qed.

Lemma run_found_length depth lines destination sources fs h :
  h ∈ FOUND (snd (run depth lines destination sources fs)) ->
  length h = 32%nat.
Proof.
  destruct (run_cases depth lines destination sources fs)
    as [[_ ->]|[(why & db & _ & ->)|(db & o & st' & _ & _ & Hr & ->)]];
    try (intros Hin; cbn in Hin; set_solver).
  assert (Hst : FOUND (snd (match o with Normal => report st' | _ => (o, st') end))
                = FOUND st').
  { destruct o; [|done]. destruct (report st') as [o2 st2] eqn:Er.
    by apply report_state in Er as (_ & ? & _). }
  rewrite Hst. apply (read_sources_found_length _ _ _ _ _ _ Hr).
  intros h' Hin. cbn in Hin. set_solver.
Qed.

End FoundLength.

(** * The claims *)

Section Claims.

Context `{Harch : Libarchive, Hscan : Scandir}.

(** C9. Hash correctness: for every byte content [b], [hash_file] on a
    file whose content is [b] returns the SHA-256 digest of [b] as the
    standard defines it, and that is also what [hash_mem b] returns: the
    loop over 4096-byte chunks computes the hash of the whole buffer. *)
Theorem hash_file_is_sha256 (fs : filesystem) (name : string) (b : bytes) :
  Os.stat fs name = Some (TFile b) ->
  hash_file fs name = inr (Sha256.reference b)
  /\ hash_mem b = Sha256.reference b
  /\ hash_file fs name = inr (hash_mem b).
Proof.
  intros Hst. apply read_stat in Hst.
  assert (Hmem : hash_mem b = Sha256.reference b) by apply digest_update.
  rewrite (hash_file_read _ _ _ Hst), Hmem. auto.
Qed.



(** C2. No overwrite: when the index has the hash and its target path
    exists, [write_file] returns normally, adds the hash to [FOUND] and
    leaves the whole file system as it was.  And whatever the sources
    are, every file and directory that exists when the traversal starts
    is the same when it ends, also when it ends in an exception. *)
Theorem write_file_no_overwrite (src : source) (destination : string)
  (h : bytes) (filename : string) (st : state) :
  DB st !! h = Some filename ->
  Os.exists_ (disk st) (Py.join destination filename) = true ->
  write_file src destination h st
  = (Normal, State (DB st) ({[h]} ∪ FOUND st) (disk st) (printed st))
  /\ (forall depth sources o st',
        read_sources depth sources destination st = (o, st') ->
        forall k n, disk st !! k = Some n -> disk st' !! k = Some n).
Proof.
  intros Hdb Hex. split.
  - unfold write_file. rewrite Hdb. cbn [disk set_disk DB FOUND printed].
    apply exists_stat in Hex as Hst. destruct Hst as [t Ht].
    rewrite (mkdir_parents_existing _ _ _ Ht), Hex. reflexivity.
  - intros depth sources o st' Hrun k n Hk.
    apply read_sources_evolves in Hrun as (Hsub & _).
    eapply lookup_weaken; eauto.
Qed.

(** C3. Containment: at the end of every run [FOUND] is a subset of the
    keys of [DB]; every traversal step keeps [DB], keeps every element
    of [FOUND] and keeps [FOUND] within the keys; and [write_file], the
    only place that changes [FOUND], adds at most the hash it was given,
    and only when that hash is a key. *)
Theorem found_within_index (depth : nat) (lines : list string)
  (destination : string) (sources : list string) (fs : filesystem) :
  FOUND (snd (run depth lines destination sources fs))
    ⊆ dom (DB (snd (run depth lines destination sources fs)))
  /\ (forall st o st',
        read_sources depth sources destination st = (o, st') ->
        DB st' = DB st /\ FOUND st ⊆ FOUND st'
        /\ (FOUND st ⊆ dom (DB st) -> FOUND st' ⊆ dom (DB st')))
  /\ (forall src h st o st',
        write_file src destination h st = (o, st') ->
        DB st' = DB st
        /\ (FOUND st' = FOUND st
            \/ (FOUND st' = {[h]} ∪ FOUND st /\ h ∈ dom (DB st)))).
Proof.
  split_and!.
  - unfold run, main. cbn [disk].
    destruct (Os.isdir fs destination); cbn [negb];
      [|simpl; apply empty_subseteq].
    destruct (load_smdb lines) as [[|e] db].
    + destruct (read_sources _ _ _ _) as [o st'] eqn:Hrun.
      apply read_sources_evolves in Hrun as (_ & _ & _ & Hinv).
      specialize (Hinv (empty_subseteq _)).
      destruct o; [|exact Hinv].
      destruct (report st') as [o' st''] eqn:Hrep.
      apply report_state in Hrep as (Hdb & Hf & _). cbn [snd].
      rewrite Hdb, Hf. exact Hinv.
    + destruct e; simpl; apply empty_subseteq.
  - intros st o st' Hrun.
    apply read_sources_evolves in Hrun as (_ & ? & ? & ?). auto.
  - intros src h st o st'. apply write_file_found.
Qed.


(** C7, as the code has it. When the index was built and the
    destination is a directory, [main] goes on to the report exactly
    when no source raises: an exception from a source, an [OSError]
    among them, ends [main] there, with the state the source left and
    no report.  With no exception and an index that is not empty, the
    report gives the sizes of [FOUND] and of [DB]. *)
Theorem main_reports_or_propagates (depth : nat) (lines : list string)
  (destination : string) (sources : list string) (st : state)
  (db : index) (o : outcome) (st' : state) :
  Os.isdir (disk st) destination = true ->
  load_smdb lines = (Normal, db) ->
  read_sources depth sources destination
    (State db (FOUND st) (disk st) (printed st)) = (o, st') ->
  (forall e, o = Raise e ->
     main depth lines destination sources st = (Raise e, st'))
  /\ (o = Normal -> db <> ∅ ->
      main depth lines destination sources st
      = (Normal, print (FoundFiles (size (FOUND st')) (size db))
                   (print (SmdbLists (size db)) (print MsgDone st')))).
Proof.
  intros Hdir Hload Hrun.
  rewrite (main_unfold _ _ _ _ _ Hdir), Hload. cbn [fst snd].
  rewrite Hrun. split.
  - intros e ->. reflexivity.
  - intros -> Hne.
    apply read_sources_evolves in Hrun as (_ & Hdb & _). simpl in Hdb.
    unfold report. cbn [DB print]. rewrite Hdb.
    destruct (Nat.eqb_spec (size db) 0) as [Hz|_]; [|reflexivity].
    apply map_size_empty_iff in Hz. contradiction.
Qed.

(** C10. Division by zero: the index that [load_smdb] builds is empty
    exactly when the manifest has no line; then a run whose traversal
    returns ends in [ZeroDivisionError], after [Done.] and the count of
    the index and before the count of [FOUND] is printed.  With an index
    that is not empty the same run returns normally. *)
Theorem empty_index_divides_by_zero (depth : nat) (lines : list string)
  (destination : string) (sources : list string) (st : state)
  (db : index) (st' : state) :
  Os.isdir (disk st) destination = true ->
  load_smdb lines = (Normal, db) ->
  read_sources depth sources destination
    (State db (FOUND st) (disk st) (printed st)) = (Normal, st') ->
  (db = ∅ <-> lines = [])
  /\ (db = ∅ ->
      main depth lines destination sources st
      = (Raise ZeroDivisionError,
         print (SmdbLists 0) (print MsgDone st')))
  /\ (db <> ∅ ->
      fst (main depth lines destination sources st) = Normal).
Proof.
  intros Hdir Hload Hrun. split; [apply load_smdb_empty, Hload|].
  rewrite (main_unfold _ _ _ _ _ Hdir), Hload. cbn [fst snd].
  rewrite Hrun.
  apply read_sources_evolves in Hrun as (_ & Hdb & _). simpl in Hdb.
  unfold report. cbn [DB print]. rewrite Hdb. split.
  - intros ->. rewrite map_size_empty. reflexivity.
  - intros Hne. destruct (Nat.eqb_spec (size db) 0) as [Hz|_]; [|reflexivity].
    apply map_size_empty_iff in Hz. contradiction.
Qed.

End Claims.

Section ClaimsOfListing.

Context `{Harch : Libarchive, Hscan : Scandir, Hlaws : !ScandirLaws}.

Lemma for_each_ignored {A} (body : A -> state -> outcome * state) l st :
  (forall x, x ∈ l -> body x st = (Normal, st)) ->
  for_each body l st = (Normal, st).
Proof.
  induction l as [|x l IH]; intros Hbody; simpl; [reflexivity|].
  rewrite (Hbody x) by left. apply IH. intros y Hy. apply Hbody. right. exact Hy.
Qed.


End ClaimsOfListing.

Section ClaimsOfRuns.

Context `{Harch : Libarchive, Hscan : Scandir, Hlaws : !ScandirLaws}.


End ClaimsOfRuns.

(** The listing of the example system is a listing. *)
#[global] Instance toy_laws : @ScandirLaws Toy.toy_scandir.
Proof.
  constructor. intros fs d name. cbn [listdir Toy.toy_scandir]. unfold Toy.toy_listdir.
  rewrite list_elem_of_omap. split.
  - intros ([key n] & Hin & Hf). apply elem_of_map_to_list in Hin.
    simpl in Hf. destruct (decide (removelast key = d)) as [<-|]; [|discriminate].
    destruct key as [|c key] using rev_ind; [discriminate|].
    rewrite last_snoc in Hf. injection Hf as <-.
    rewrite removelast_last. eauto.
  - intros [n Hn]. exists (d ++ [name], n). split.
    + apply elem_of_map_to_list, Hn.
    + simpl. rewrite removelast_last, last_snoc.
      destruct (decide (d = d)); [reflexivity|congruence].
Qed.

(** * The claims on the example inputs *)

Section Witnesses.

Import Toy Example.
Local Open Scope string_scope.

Lemma hash_file_is_sha256_witness :
  Os.stat fs_nested "bare.bin" = Some (TFile hello)
  /\ hash_file fs_nested "bare.bin" = inr (Sha256.reference hello).
Proof.
  assert (Hst : Os.stat fs_nested "bare.bin" = Some (TFile hello))
    by (vm_compute; reflexivity).
  exact (conj Hst
           (proj1 (hash_file_is_sha256 fs_nested "bare.bin" hello Hst))).
Defined.

Example sha256_abc :
  hash_mem (bytes_of_string "abc") =
  map byte_of_Z
    [0xba; 0x78; 0x16; 0xbf; 0x8f; 0x01; 0xcf; 0xea; 0x41; 0x41; 0x40; 0xde;
     0x5d; 0xae; 0x22; 0x23; 0xb0; 0x03; 0x61; 0xa3; 0x96; 0x17; 0x7a; 0x9c;
     0xb4; 0x10; 0xff; 0x61; 0xf2; 0x00; 0x15; 0xad].
Proof. vm_compute. reflexivity. Qed.

Example duplicate_winner : db_dup !! hash_mem hello = Some "a.rom".
Proof. vm_compute. reflexivity. Qed.




Lemma write_file_no_overwrite_witness :
  write_file (Buffer hello) "out" (hash_mem hello) st_done
  = (Normal, State (DB st_done) ({[hash_mem hello]} ∪ FOUND st_done)
               (disk st_done) (printed st_done)).
Proof.
  assert (Hdb : DB st_done !! hash_mem hello = Some "games/a.rom")
    by (vm_compute; reflexivity).
  assert (Hex : Os.exists_ (disk st_done) (Py.join "out" "games/a.rom") = true)
    by (vm_compute; reflexivity).
  exact (proj1 (write_file_no_overwrite (Buffer hello) "out"
                  (hash_mem hello) "games/a.rom" st_done Hdb Hex)).
Defined.

Lemma found_within_index_witness :
  FOUND (snd (run 5 manifest2 "out" ["src"] fs_start))
    ⊆ dom (DB (snd (run 5 manifest2 "out" ["src"] fs_start))).
Proof.
  exact (proj1 (found_within_index 5 manifest2 "out" ["src"] fs_start)).
Defined.


(** C7 as stated fails: the index is built, the only source raises
    [FileExistsError] (a file stands where the target directory must
    be made), and the run ends there with nothing printed. *)
Lemma root_failure_ends_run :
  fst (load_smdb manifest) = Normal
  /\ fst (run 5 manifest "out" ["src"] fs_blocked)
     = Raise (OSError FileExistsError)
  /\ printed (snd (run 5 manifest "out" ["src"] fs_blocked)) = [].
Proof. vm_compute. auto. Qed.

Lemma main_reports_or_propagates_witness :
  main 5 manifest "out" ["src"] st_blocked
  = (Raise (OSError FileExistsError),
     snd (read_sources 5 ["src"] "out" st_blocked_loaded)).
Proof.
  assert (Hd : Os.isdir (disk st_blocked) "out" = true)
    by (vm_compute; reflexivity).
  assert (Hf : fst (load_smdb manifest) = Normal)
    by (vm_compute; reflexivity).
  assert (Hr : fst (read_sources 5 ["src"] "out" st_blocked_loaded)
               = Raise (OSError FileExistsError))
    by (vm_compute; reflexivity).
  exact (proj1 (main_reports_or_propagates 5 manifest "out" ["src"]
                  st_blocked db _ _ Hd (pair_of_fst _ _ Hf)
                  (pair_of_fst _ _ Hr)) _ eq_refl).
Defined.

Lemma empty_index_divides_by_zero_witness :
  main 5 [] "out" ["src"] st_start
  = (Raise ZeroDivisionError,
     print (SmdbLists 0)
       (print MsgDone
          (snd (read_sources 5 ["src"] "out"
                  (State ∅ (FOUND st_start) (disk st_start)
                     (printed st_start)))))).
Proof.
  assert (Hd : Os.isdir (disk st_start) "out" = true)
    by (vm_compute; reflexivity).
  assert (Hr : fst (read_sources 5 ["src"] "out"
                      (State ∅ (FOUND st_start) (disk st_start)
                         (printed st_start))) = Normal)
    by (vm_compute; reflexivity).
  exact (proj1 (proj2 (empty_index_divides_by_zero 5 [] "out" ["src"]
                         st_start ∅ _ Hd eq_refl (pair_of_fst _ _ Hr)))
           eq_refl).
Defined.





End Witnesses.

(** * Further properties *)

Section Extras.

Context `{Harch : Libarchive, Hscan : Scandir}.

(** X1. The traversal prints nothing: whatever the sources are, the loop
    of [main] over them leaves the output as it was, so no run prints
    [What is it!?].  [read_file] does print it, and does nothing else, on a
    path that is no regular file; but [read_dir] and [main] call it on a
    path only after [os.path.isfile] said yes. *)
Theorem traversal_prints_nothing (depth : nat) (lines : list string)
  (destination : string) (sources : list string) (fs : filesystem) :
  (forall st o st',
     read_sources depth sources destination st = (o, st') ->
     printed st' = printed st)
  /\ (WhatIsIt ∉ printed (snd (run depth lines destination sources fs)))
  /\ (forall name st,
        Os.isfile (disk st) name = false ->
        read_file depth (Path name) destination st
        = (Normal, print WhatIsIt st)).
Proof.
  split_and!.
  - intros st o st'. apply read_sources_printed.
  - destruct (run_cases depth lines destination sources fs)
      as [[_ ->]|[(why & db & _ & ->)|(db & o & st' & _ & _ & Hr & ->)]];
      cbn; try (intros H; apply list_elem_of_singleton in H; discriminate).
    apply read_sources_printed in Hr. cbn in Hr.
    destruct o as [|e].
    + unfold report. cbn [DB FOUND printed print].
      destruct (size (DB st') =? 0)%nat; cbn [snd printed print];
        rewrite Hr; cbn [app];
        rewrite !elem_of_cons, elem_of_nil; intuition discriminate.
    + cbn [snd]. rewrite Hr. apply not_elem_of_nil.
  - intros name st Hf. cbn [read_file]. by rewrite Hf.
Qed.

(** X2. What a run prints is one of five things.  Returning normally:
    the error about the destination, or the error about the manifest, or
    [Done.], the size of the index and the size of [FOUND], where the
    second is positive and the third is at most the second.  Raising
    [ZeroDivisionError]: [Done.] and a size of zero, the index being
    empty.  Raising anything else: nothing. *)
Theorem run_output (depth : nat) (lines : list string)
  (destination : string) (sources : list string) (fs : filesystem) :
  match run depth lines destination sources fs with
  | (Normal, st) =>
      printed st = [ErrNoDestination destination]
      \/ (exists why, printed st = [ErrSmdb why])
      \/ (exists found total,
            printed st = [MsgDone; SmdbLists total; FoundFiles found total]
            /\ found = size (FOUND st) /\ total = size (DB st)
            /\ (found <= total)%nat /\ (0 < total)%nat)
  | (Raise ZeroDivisionError, st) =>
      printed st = [MsgDone; SmdbLists 0] /\ DB st = ∅
  | (Raise _, st) => printed st = []
  end.
Proof.
  destruct (run_cases depth lines destination sources fs)
    as [[_ ->]|[(why & db & _ & ->)|(db & o & st' & _ & _ & Hr & ->)]].
  - by left.
  - right; left. by exists why.
  - pose proof (read_sources_printed _ _ _ _ _ _ Hr) as Hp. cbn in Hp.
    pose proof (read_sources_evolves _ _ _ _ _ _ Hr) as (_ & Hdb & _ & Hin).
    cbn in Hdb, Hin.
    destruct o as [|e].
    + unfold report. cbn [DB print].
      destruct (size (DB st') =? 0)%nat eqn:Hz;
        cbn [printed FOUND DB print]; rewrite Hp; cbn [app].
      * apply Nat.eqb_eq in Hz. split; [by rewrite Hz|].
        by apply map_size_empty_iff.
      * apply Nat.eqb_neq in Hz. right; right.
        eexists _, _. split_and!; try reflexivity; [|lia].
        rewrite <- size_dom. apply subseteq_size. apply Hin. set_solver.
    + destruct (read_sources_raises _ _ _ _ _ _ Hr) as [->|[oe ->]]; exact Hp.
Qed.


(** X4. A source that is neither a directory nor a regular file when the
    run ends (a path that does not exist, say) is passed over without a
    word: the run is the run without that source, in outcome, files,
    index, [FOUND] and output. *)
Theorem missing_source_skipped (depth : nat) (lines : list string)
  (destination : string) (before after : list string) (s : string)
  (fs : filesystem) :
  Os.isdir (disk (snd (run depth lines destination (before ++ after) fs))) s
  = false ->
  Os.isfile (disk (snd (run depth lines destination (before ++ after) fs))) s
  = false ->
  run depth lines destination (before ++ s :: after) fs
  = run depth lines destination (before ++ after) fs.
Proof.
  unfold run, main. cbn [disk FOUND printed].
  destruct (Os.isdir fs destination); cbn [negb]; [|done].
  destruct (load_smdb lines) as [[|e] db]; [|done].
  destruct (read_sources depth (before ++ after) destination _)
    as [o st'] eqn:E.
  intros Hd Hf.
  assert (Hst : disk (snd (match o with Normal => report st' | _ => (o, st') end))
                = disk st').
  { destruct o; [|done]. destruct (report st') as [o2 st2] eqn:Er.
    by apply report_state in Er as (_ & _ & Hk). }
  assert (Hd' : Os.isdir (disk st') s = false).
  { rewrite <- Hst. by destruct o. }
  assert (Hf' : Os.isfile (disk st') s = false).
  { rewrite <- Hst. by destruct o. }
  by rewrite (read_sources_skip _ _ _ _ _ _ _ _ E Hd' Hf').
Qed.

(** X5. What a run creates: every node that is there after the run and
    was not there before is a directory, or a regular file (no symbolic
    link) that is the target of a record of the index: the SHA-256 of its
    bytes is a key, and the destination joined with the file name of that
    key is a path that leads to it.  This holds also when the run ends in
    an exception. *)
Theorem new_files_are_listed (depth : nat) (lines : list string)
  (destination : string) (sources : list string) (fs : filesystem)
  (k : path) (nd : node) :
  disk (snd (run depth lines destination sources fs)) !! k = Some nd ->
  fs !! k = None ->
  resolved nd = TDir
  \/ exists content filename,
       nd = Node false (TFile content)
       /\ DB (snd (run depth lines destination sources fs))
            !! Sha256.reference content = Some filename
       /\ Os.lookup (disk (snd (run depth lines destination sources fs)))
            (Py.join destination filename) = inr k.
Proof.
  assert (Hgoal : fresh_listed destination fs
                    (snd (run depth lines destination sources fs))).
  { destruct (run_cases depth lines destination sources fs)
      as [[_ ->]|[(why & db & _ & ->)|(db & o & st' & _ & _ & Hr & ->)]];
      try (intros k' nd' Hk H0; cbn in Hk; congruence).
    apply (read_sources_listed _ fs) in Hr;
      [|intros k' nd' Hk H0; cbn in Hk; congruence].
    destruct o; [|exact Hr].
    destruct (report st') as [o2 st2] eqn:Er.
    apply report_state in Er as (Hdb & _ & Hd).
    intros k' nd' Hk H0. cbn [snd] in *. rewrite Hd in Hk.
    destruct (Hr k' nd' Hk H0) as [?|(c & f & -> & Hf & Hl)]; [by left|right].
    exists c, f. by rewrite Hdb, Hd. }
  intros Hk H0. destruct (Hgoal k nd Hk H0) as [?|(c & f & -> & Hf & Hl)];
    [by left|right].
  exists c, f. unfold hash_mem in Hf. by rewrite digest_update in Hf.
Qed.


(** X7. A run that finds nothing changes nothing: when [FOUND] is empty
    at the end, no file and no directory was made. *)
Theorem nothing_found_nothing_changed (depth : nat) (lines : list string)
  (destination : string) (sources : list string) (fs : filesystem) :
  size (FOUND (snd (run depth lines destination sources fs))) = 0%nat ->
  disk (snd (run depth lines destination sources fs)) = fs.
Proof.
  destruct (run_cases depth lines destination sources fs)
    as [[_ ->]|[(why & db & _ & ->)|(db & o & st' & _ & _ & Hr & ->)]];
    try done.
  assert (Hst : forall r, r = match o with Normal => report st' | _ => (o, st') end ->
            FOUND (snd r) = FOUND st' /\ disk (snd r) = disk st').
  { intros r ->. destruct o; [|done]. destruct (report st') as [o2 st2] eqn:Er.
    by apply report_state in Er as (_ & ? & ?). }
  destruct (Hst _ eq_refl) as [-> ->]. intros Hz.
  by apply (read_sources_idle _ _ _ _ _ _ Hr).
Qed.


(** X9. A file that the archive reader gives up on after some entries:
    when those entries were resolved without an exception, the file itself
    is then resolved as a plain file, in the state the entries left:
    [write_file] with its bytes and their SHA-256. *)
Theorem broken_archive_is_also_a_file (depth : nat) (name : string)
  (content : bytes) (destination : string) (st st1 : state) :
  Os.stat (disk st) name = Some (TFile content) ->
  snd (entries content) = false ->
  for_each (read_blob destination depth) (fst (entries content)) st
  = (Normal, st1) ->
  read_file (S depth) (Path name) destination st
  = write_file (Buffer content) destination (Sha256.reference content) st1.
Proof.
  intros Hs Hc E.
  rewrite (read_file_path_blob _ _ _ _ _ Hs). unfold read_blob at 1.
  rewrite read_archive_blobs, Hc, E. cbn [or_read_file caught].
  unfold read_file_buffer, hash_mem. by rewrite digest_update.
Qed.

(** X10. What [hash_mem] and [hash_file] return is 32 bytes long, and so
    is every element of [FOUND] in a run. *)
Theorem digests_are_32_bytes (buf : bytes) (fs : filesystem) (name : string) :
  length (hash_mem buf) = 32%nat
  /\ (forall h, hash_file fs name = inr h -> length h = 32%nat)
  /\ (forall depth lines destination sources h,
        h ∈ FOUND (snd (run depth lines destination sources fs)) ->
        length h = 32%nat).
Proof.
  split_and!.
  - apply length_hash_mem.
  - intros h. apply length_hash_file.
  - intros depth lines destination sources h. apply run_found_length.
Qed.

(** X11. A record whose first field has white space among its 64
    characters is accepted ([bytearray.fromhex] skips the white space), but
    its key is shorter than 32 bytes: no content has it as its hash and no
    run puts it in [FOUND].  When the manifest with such a line loads and
    the destination is a directory, the key is in the index, so the run
    ends with fewer hashes found than listed. *)
Theorem spaced_hash_never_found (depth : nat) (lines : list string)
  (destination : string) (sources : list string) (fs : filesystem)
  (line : string) (key : bytes) (filename : string) :
  parse_line line = inr (key, filename) ->
  existsb Py.c_isspace (list_ascii_of_string (Example.hash_field line)) = true ->
  (length key < 32)%nat
  /\ (forall content, hash_mem content <> key)
  /\ (key ∉ FOUND (snd (run depth lines destination sources fs)))
  /\ (line ∈ lines ->
      fst (load_smdb lines) = Normal ->
      Os.isdir fs destination = true ->
      key ∈ dom (DB (snd (run depth lines destination sources fs)))
      /\ (size (FOUND (snd (run depth lines destination sources fs)))
          < size (DB (snd (run depth lines destination sources fs))))%nat).
Proof.
  intros Hp Hs.
  destruct (spaced_key_short _ _ _ Hp) as [_ Hlt]. specialize (Hlt Hs).
  assert (Hnot : key ∉ FOUND (snd (run depth lines destination sources fs))).
  { intros Hin.
    apply run_found_length in Hin. lia. }
  split_and!; [done| |done|].
  - intros content <-. rewrite length_hash_mem in Hlt. lia.
  - intros Hin Hl Hd.
    destruct (run_state depth lines destination sources fs Hd Hl)
      as (o & st' & Hr & Hdb & Hf & _).
    assert (Hk : key ∈ dom (DB (snd (run depth lines destination sources fs)))).
    { rewrite Hdb. by apply (load_smdb_key lines _ line key filename);
        [apply pair_of_fst|..]. }
    split; [exact Hk|].
    rewrite <- size_dom. apply subset_size. split.
    + rewrite Hdb, Hf.
      pose proof (read_sources_evolves _ _ _ _ _ _ Hr) as (_ & Hdb' & _ & Hsub).
      cbn in Hdb', Hsub. rewrite <- Hdb'. apply Hsub. set_solver.
    + intros Hsub. apply Hnot. by apply Hsub.
Qed.

(** X12. A file name of the index that starts with a separator is an
    absolute path: [os.path.join] drops the destination, [write_file] does
    the same whatever the destination is, and when it returns normally the
    path that exists is the file name itself. *)
Theorem absolute_name_ignores_destination (src : source)
  (destination : string) (h : bytes) (filename : string) (st : state) :
  DB st !! h = Some filename ->
  Py.startswith_sep filename = true ->
  (forall other, write_file src other h st = write_file src destination h st)
  /\ (forall buf st',
        write_file (Buffer buf) destination h st = (Normal, st') ->
        Os.exists_ (disk st') filename = true).
Proof.
  intros Hk Ha.
  assert (Hj : forall d, Py.join d filename = filename).
  { intros d. unfold Py.join. by rewrite Ha. }
  split.
  - intros other. unfold write_file. by rewrite Hk, !Hj.
  - intros buf st' Hw.
    destruct (write_file_buffer_spec _ _ _ _ _ _ Hw)
      as ((_ & Hdb & _) & _ & Hsat & _).
    rewrite <- (Hj destination). apply (Hsat eq_refl). by rewrite Hdb.
Qed.


End Extras.

(** * The further properties on the example inputs *)

Section ExtraWitnesses.

Import Toy Example.
Local Open Scope string_scope.


Lemma missing_source_skipped_witness :
  run 5 manifest "out" (["src"] ++ "nowhere" :: []) fs_start
  = run 5 manifest "out" (["src"] ++ []) fs_start.
Proof.
  assert (Hd : Os.isdir (disk (snd (run 5 manifest "out" (["src"] ++ []) fs_start)))
                 "nowhere" = false) by (vm_compute; reflexivity).
  assert (Hf : Os.isfile (disk (snd (run 5 manifest "out" (["src"] ++ []) fs_start)))
                 "nowhere" = false) by (vm_compute; reflexivity).
  exact (missing_source_skipped 5 manifest "out" ["src"] [] "nowhere" fs_start
           Hd Hf).
Defined.

Lemma new_files_are_listed_witness :
  resolved (Node false (TFile hello)) = TDir
  \/ exists content filename,
       Node false (TFile hello) = Node false (TFile content)
       /\ DB (snd (run 5 manifest "out" ["src"] fs_start))
            !! Sha256.reference content = Some filename
       /\ Os.lookup (disk (snd (run 5 manifest "out" ["src"] fs_start)))
            (Py.join "out" filename) = inr ["out"; "games"; "a.rom"].
Proof.
  assert (Hk : disk (snd (run 5 manifest "out" ["src"] fs_start))
                 !! ["out"; "games"; "a.rom"] = Some (Node false (TFile hello)))
    by (vm_compute; reflexivity).
  assert (H0 : fs_start !! ["out"; "games"; "a.rom"] = None)
    by (vm_compute; reflexivity).
  exact (new_files_are_listed 5 manifest "out" ["src"] fs_start
           ["out"; "games"; "a.rom"] (Node false (TFile hello)) Hk H0).
Defined.


Lemma nothing_found_nothing_changed_witness :
  disk (snd (run 5 manifest_secret "out" ["src"] fs_start)) = fs_start.
Proof.
  assert (Hz : size (FOUND (snd (run 5 manifest_secret "out" ["src"] fs_start)))
                 = 0%nat) by (vm_compute; reflexivity).
  exact (nothing_found_nothing_changed 5 manifest_secret "out" ["src"] fs_start Hz).
Defined.


Lemma broken_archive_is_also_a_file_witness :
  read_file 5 (Path "cut.toy") "out" st_broken
  = write_file (Buffer broken) "out" (Sha256.reference broken)
      (snd (for_each (read_blob "out" 4) (fst (entries broken)) st_broken)).
Proof.
  assert (Hs : Os.stat (disk st_broken) "cut.toy" = Some (TFile broken))
    by (vm_compute; reflexivity).
  assert (Hc : snd (entries broken) = false) by (vm_compute; reflexivity).
  assert (Hn : fst (for_each (read_blob "out" 4) (fst (entries broken)) st_broken)
                 = Normal) by (vm_compute; reflexivity).
  exact (broken_archive_is_also_a_file 4 "cut.toy" broken "out" st_broken _
           Hs Hc (pair_of_fst _ _ Hn)).
Defined.

Lemma spaced_hash_never_found_witness :
  (length key_spaced < 32)%nat
  /\ (forall content, hash_mem content <> key_spaced)
  /\ (key_spaced ∉ FOUND (snd (run 5 manifest_spaced "out" ["src"] fs_start)))
  /\ (line_spaced ∈ manifest_spaced ->
      fst (load_smdb manifest_spaced) = Normal ->
      Os.isdir fs_start "out" = true ->
      key_spaced ∈ dom (DB (snd (run 5 manifest_spaced "out" ["src"] fs_start)))
      /\ (size (FOUND (snd (run 5 manifest_spaced "out" ["src"] fs_start)))
          < size (DB (snd (run 5 manifest_spaced "out" ["src"] fs_start))))%nat).
Proof.
  assert (Hp : parse_line line_spaced = inr (key_spaced, "a.rom"))
    by (vm_compute; reflexivity).
  assert (Hs : existsb Py.c_isspace
                 (list_ascii_of_string (hash_field line_spaced)) = true)
    by (vm_compute; reflexivity).
  exact (spaced_hash_never_found 5 manifest_spaced "out" ["src"] fs_start
           line_spaced key_spaced "a.rom" Hp Hs).
Defined.

Lemma absolute_name_ignores_destination_witness :
  (forall other,
     write_file (Buffer hello) other (hash_mem hello) st_abs
     = write_file (Buffer hello) "out" (hash_mem hello) st_abs)
  /\ (forall buf st',
        write_file (Buffer buf) "out" (hash_mem hello) st_abs = (Normal, st') ->
        Os.exists_ (disk st') "/abs.rom" = true).
Proof.
  assert (Hk : DB st_abs !! hash_mem hello = Some "/abs.rom")
    by (vm_compute; reflexivity).
  assert (Ha : Py.startswith_sep "/abs.rom" = true) by (vm_compute; reflexivity).
  exact (absolute_name_ignores_destination (Buffer hello) "out" (hash_mem hello)
           "/abs.rom" st_abs Hk Ha).
Defined.


End ExtraWitnesses.
